(** * c_linter: a regex-driven style checker and formatter for C sources

    A shallow embedding of [c_linter.py].  The program works on lines of
    text with Python's [re] module, so the development starts with the
    fragment of [re] the seven patterns of the program use: a backtracking
    matcher with greedy repetition, capture groups, [^] and [\b].  The
    patterns, the Normalizer ([fix_pointer_spacing]), the Rewriter
    ([fix_brace_placement]), the Linter ([lint_c_code]) and the command
    line driver are then transcribed from the source.

    Characters are code points below 256; their classification as
    whitespace ([\s], [str.strip]) and word characters ([\w]) is Python's
    for that range. *)

From Stdlib Require Import Ascii String List Bool Arith Lia Sorted.
Import ListNotations.

(** ** Text *)

Definition text := list ascii.

(** [T "abc"] is the text of a string literal. *)
Definition T (s : string) : text := list_ascii_of_string s.

Definition LF : ascii := "010"%char.
Definition CR : ascii := "013"%char.

Definition code (c : ascii) : nat := nat_of_ascii c.

Definition between (lo hi : nat) (c : ascii) : bool :=
  (lo <=? code c) && (code c <=? hi).

(** [str.isspace] and [\s]: TAB..CR, FS..US, SPACE, NEL, NBSP. *)
Definition is_space (c : ascii) : bool :=
  between 9 13 c || between 28 32 c || (code c =? 133) || (code c =? 160).

(** [\w]: alphanumeric characters and the underscore. *)
Definition is_word (c : ascii) : bool :=
  between 48 57 c || between 65 90 c || (code c =? 95) || between 97 122 c
  || (code c =? 170) || between 178 179 c || (code c =? 181)
  || between 185 186 c || between 188 190 c
  || between 192 214 c || between 216 246 c || between 248 255 c.

(** [.] matches anything but a newline. *)
Definition is_dot (c : ascii) : bool := negb (Ascii.eqb c LF).

(** [[^c]] *)
Definition is_not (x : ascii) (c : ascii) : bool := negb (Ascii.eqb c x).

(** [[^\sx]] *)
Definition not_space_nor (x : ascii) (c : ascii) : bool :=
  negb (is_space c) && negb (Ascii.eqb c x).

Definition not_space (c : ascii) : bool := negb (is_space c).

Fixpoint take_while (p : ascii -> bool) (s : text) : text :=
  match s with
  | c :: s' => if p c then c :: take_while p s' else []
  | [] => []
  end.

Fixpoint drop_while (p : ascii -> bool) (s : text) : text :=
  match s with
  | c :: s' => if p c then drop_while p s' else s
  | [] => []
  end.

(** [str.strip()] *)
Definition lstrip (s : text) : text := drop_while is_space s.
Definition rstrip (s : text) : text := rev (drop_while is_space (rev s)).
Definition strip (s : text) : text := rstrip (lstrip s).

Definition text_eqb (a b : text) : bool :=
  if list_eq_dec ascii_dec a b then true else false.

(** [str.endswith(suffix)] *)
Fixpoint starts_with (p s : text) : bool :=
  match p, s with
  | [], _ => true
  | x :: p', y :: s' => Ascii.eqb x y && starts_with p' s'
  | _ :: _, [] => false
  end.

Definition endswith (s suffix : text) : bool :=
  starts_with (rev suffix) (rev s).

(** ** The [re] fragment *)

Inductive regex : Type :=
| Chr (c : ascii)                (* a literal character *)
| Cls (p : ascii -> bool)        (* one character of a class *)
| Rep (p : ascii -> bool)        (* greedy [p*] over a class *)
| Cat (r1 r2 : regex)            (* concatenation *)
| Opt (r : regex)                (* greedy [(?:r)?] *)
| Grp (n : nat) (r : regex)      (* capture group [n] *)
| Bol                            (* [^] *)
| Wordb.                         (* [\b] *)

(** greedy [p+] *)
Definition Rep1 (p : ascii -> bool) : regex := Cat (Cls p) (Rep p).

(** A literal string, character by character (the empty string consumes
    nothing). *)
Fixpoint Str (s : text) : regex :=
  match s with
  | [] => Opt (Rep (fun _ => false))
  | [c] => Chr c
  | c :: s' => Cat (Chr c) (Str s')
  end.

Declare Scope regex_scope.
Delimit Scope regex_scope with re.
Notation "r1 ;; r2" := (Cat r1 r2) (at level 61, right associativity) : regex_scope.

(** Captured groups, most recent binding first. *)
Definition caps := list (nat * text).

Fixpoint group (n : nat) (g : caps) : text :=
  match g with
  | [] => []
  | (m, s) :: g' => if n =? m then s else group n g'
  end.

(** A position in the subject: the text before it (reversed) and the text
    after it.  A finished match is the position where it ended and the
    groups it captured. *)
Definition result := (text * text * caps)%type.
Definition cont := text -> text -> caps -> option result.

Definition ret : cont := fun bef aft g => Some (bef, aft, g).

Definition hd_word (s : text) : bool :=
  match s with c :: _ => is_word c | [] => false end.

(** [\b]: exactly one side of the position is a word character. *)
Definition at_boundary (bef aft : text) : bool := xorb (hd_word bef) (hd_word aft).

(** Greedy repetition: take one more character if possible, and fall back
    to the continuation here when the longer attempt fails. *)
Fixpoint star (p : ascii -> bool) (k : cont) (bef aft : text) (g : caps)
  : option result :=
  match aft with
  | c :: aft' =>
      if p c then
        match star p k (c :: bef) aft' g with
        | Some r => Some r
        | None => k bef aft g
        end
      else k bef aft g
  | [] => k bef aft g
  end.

Fixpoint run (r : regex) (k : cont) (bef aft : text) (g : caps) : option result :=
  match r with
  | Chr c =>
      match aft with
      | x :: aft' => if Ascii.eqb x c then k (x :: bef) aft' g else None
      | [] => None
      end
  | Cls p =>
      match aft with
      | x :: aft' => if p x then k (x :: bef) aft' g else None
      | [] => None
      end
  | Rep p => star p k bef aft g
  | Cat r1 r2 => run r1 (run r2 k) bef aft g
  | Opt r1 =>
      match run r1 k bef aft g with
      | Some res => Some res
      | None => k bef aft g
      end
  | Grp n r1 =>
      run r1 (fun bef' aft' g' =>
                k bef' aft' ((n, firstn (length aft - length aft') aft) :: g'))
          bef aft g
  | Bol => match bef with [] => k bef aft g | _ :: _ => None end
  | Wordb => if at_boundary bef aft then k bef aft g else None
  end.

(** A match object: the text before the match (reversed), the unmatched
    rest, and the groups, group 0 being the whole match. *)
Record rmatch : Type := mk_rmatch {
  m_before : text;
  m_rest : text;
  m_groups : caps
}.

Definition match_at (r : regex) (bef aft : text) : option rmatch :=
  match run (Grp 0 r) ret bef aft [] with
  | Some (_, aft', g) => Some (mk_rmatch bef aft' g)
  | None => None
  end.

(** [re.match(r, s)] *)
Definition re_match (r : regex) (s : text) : option rmatch := match_at r [] s.

(** [re.search(r, s)]: the first position, left to right, with a match. *)
Fixpoint search_from (r : regex) (bef aft : text) : option rmatch :=
  match match_at r bef aft with
  | Some m => Some m
  | None =>
      match aft with
      | [] => None
      | c :: aft' => search_from r (c :: bef) aft'
      end
  end.

Definition re_search (r : regex) (s : text) : option rmatch := search_from r [] s.

Definition found (o : option rmatch) : bool :=
  match o with Some _ => true | None => false end.

(** The left-to-right scan of [re.sub]: the subject is cut into the
    characters copied as they are and the matches, which do not overlap. *)
Inductive piece : Type :=
| Copy (c : ascii)
| Hit (m : rmatch).

(** [skip] counts the characters of the subject still covered by the last
    match; the search for the next match starts behind them.  An empty
    match is followed by the copy of one character. *)
Fixpoint scan_from (r : regex) (skip : nat) (bef aft : text) : list piece :=
  match skip with
  | S n =>
      match aft with
      | [] => []
      | c :: aft' => scan_from r n (c :: bef) aft'
      end
  | O =>
      match match_at r bef aft with
      | Some m =>
          Hit m ::
          match aft with
          | [] => []
          | c :: aft' =>
              match length (group 0 (m_groups m)) with
              | O => Copy c :: scan_from r 0 (c :: bef) aft'
              | S n => scan_from r n (c :: bef) aft'
              end
          end
      | None =>
          match aft with
          | [] => []
          | c :: aft' => Copy c :: scan_from r 0 (c :: bef) aft'
          end
      end
  end.

Definition re_scan (r : regex) (s : text) : list piece := scan_from r 0 [] s.

(** [re.sub(r, repl, s)], [repl] being the expansion of the replacement
    template on the groups of a match. *)
Definition expand (repl : caps -> text) (pc : piece) : text :=
  match pc with
  | Copy c => [c]
  | Hit m => repl (m_groups m)
  end.

Definition re_sub (r : regex) (repl : caps -> text) (s : text) : text :=
  flat_map (expand repl) (re_scan r s).

(** *** What a pattern can match

    [Match r bef x rest g g'] : at the position with [bef] before it (reversed)
    and [x ++ rest] after it, [r] can consume [x], turning the groups [g]
    into [g'].  The matcher finds one of these ways, and finds one whenever
    there is one the continuation accepts. *)

Inductive Match : regex -> text -> text -> text -> caps -> caps -> Prop :=
| M_Chr c bef rest g : Match (Chr c) bef [c] rest g g
| M_Cls (p : ascii -> bool) c bef rest g :
    p c = true -> Match (Cls p) bef [c] rest g g
| M_Rep (p : ascii -> bool) x bef rest g :
    forallb p x = true -> Match (Rep p) bef x rest g g
| M_Cat r1 r2 bef x1 x2 rest g g1 g2 :
    Match r1 bef x1 (x2 ++ rest) g g1 ->
    Match r2 (rev x1 ++ bef) x2 rest g1 g2 ->
    Match (Cat r1 r2) bef (x1 ++ x2) rest g g2
| M_Opt_some r bef x rest g g' :
    Match r bef x rest g g' -> Match (Opt r) bef x rest g g'
| M_Opt_none r bef rest g : Match (Opt r) bef [] rest g g
| M_Grp n r bef x rest g g' :
    Match r bef x rest g g' -> Match (Grp n r) bef x rest g ((n, x) :: g')
| M_Bol rest g : Match Bol [] [] rest g g
| M_Wordb bef rest g :
    at_boundary bef rest = true -> Match Wordb bef [] rest g g.

(** ** Pattern rules *)

Open Scope regex_scope.

(** Line 6: a word boundary, group 1 a run of word characters, optional
    whitespace, an asterisk, optional whitespace, group 2 a run of word
    characters. *)
Definition POINTER_SPACING_PATTERN : regex :=
  Wordb ;; Grp 1 (Rep1 is_word) ;; Rep is_space ;; Chr "*" ;; Rep is_space ;;
  Grp 2 (Rep1 is_word).

(** Line 7: at the start of the line, group 1 the leading whitespace, a
    closing brace, optional whitespace, group 2 made of [else], an optional
    [ if], a word boundary and a run of characters other than an opening
    brace, then optional whitespace and an opening brace. *)
Definition ELSE_BRACE_PATTERN : regex :=
  Bol ;; Grp 1 (Rep is_space) ;; Chr "}" ;; Rep is_space ;;
  Grp 2 (Str (T "else") ;; Opt (Str (T " if")) ;; Wordb ;; Rep (is_not "{")) ;;
  Rep is_space ;; Chr "{".

(** Line 8: group 1 any run of characters up to a closing parenthesis,
    optional whitespace, an opening brace, optional whitespace, group 2 the
    rest of the line. *)
Definition FUNCTION_BRACE_PATTERN : regex :=
  Grp 1 (Rep is_dot ;; Chr ")") ;; Rep is_space ;; Chr "{" ;; Rep is_space ;;
  Grp 2 (Rep is_dot).

(** Line 9: a closing parenthesis, optional whitespace, an opening brace. *)
Definition BRACE_ON_SAME_LINE_PATTERN : regex :=
  Chr ")" ;; Rep is_space ;; Chr "{".

(** Line 10: a character that is not whitespace, any run, an opening brace,
    any run, a character that is neither whitespace nor a closing brace. *)
Definition OPENING_BRACE_NOT_ALONE_PATTERN : regex :=
  Cls not_space ;; Rep is_dot ;; Chr "{" ;; Rep is_dot ;; Cls (not_space_nor "}").

(** Line 11: the same with the two braces exchanged. *)
Definition CLOSING_BRACE_NOT_ALONE_PATTERN : regex :=
  Cls not_space ;; Rep is_dot ;; Chr "}" ;; Rep is_dot ;; Cls (not_space_nor "{").

(** Line 12: the whitespace at the start of the line. *)
Definition INDENT_PATTERN : regex := Bol ;; Rep is_space.

Close Scope regex_scope.

(** The replacement template [\1 *\2]. *)
Definition POINTER_SPACING_REPLACEMENT (g : caps) : text :=
  group 1 g ++ T " *" ++ group 2 g.

Definition MSG_POINTER_SPACING : string := "put '*' next to variable (e.g., 'int* x')".
Definition MSG_BRACE_NEW_LINE : string := "'{' must be on a new line".
Definition MSG_OPENING_BRACE_ALONE : string := "'{' should be on its own line".
Definition MSG_CLOSING_BRACE_ALONE : string := "'}' should be on its own line".

Definition C_EXTENSIONS : list text := [T ".c"; T ".h"].

(** ** Pointer-Spacing Normalizer *)

Definition fix_pointer_spacing (line : text) : text :=
  re_sub POINTER_SPACING_PATTERN POINTER_SPACING_REPLACEMENT line.

(** ** Brace-Placement Rewriter *)

(** [re.match(INDENT_PATTERN, line).group()]; the pattern matches every
    line ([indent_of_total]), so the [None] case stands for an error that
    cannot happen. *)
Definition indent_of (line : text) : text :=
  match re_match INDENT_PATTERN line with
  | Some m => group 0 (m_groups m)
  | None => []
  end.

(** One turn of the loop of [fix_brace_placement]: the lines appended to
    [new_lines] for [line]. *)
Definition brace_step (new_lines : list text) (line : text) : list text :=
  let stripped := strip line in
  let indent := indent_of line in
  if text_eqb stripped (T "{") || text_eqb stripped (T "}") then
    new_lines ++ [line]
  else
    match re_match ELSE_BRACE_PATTERN line with
    | Some m =>
        let indent := group 1 (m_groups m) in
        let control := strip (group 2 (m_groups m)) in
        ((new_lines ++ [indent ++ T "}" ++ [LF]])
           ++ [indent ++ control ++ [LF]])
          ++ [indent ++ T "{" ++ [LF]]
    | None =>
        match re_search FUNCTION_BRACE_PATTERN line with
        | Some m =>
            let prefix := group 1 (m_groups m) in
            let suffix := group 2 (m_groups m) in
            let new_lines := (new_lines ++ [prefix ++ [LF]]) ++ [indent ++ T "{" ++ [LF]] in
            match strip suffix with
            | [] => new_lines
            | _ :: _ => new_lines ++ [indent ++ strip suffix ++ [LF]]
            end
        | None => new_lines ++ [line]
        end
    end.

Definition fix_brace_placement (lines : list text) : list text :=
  fold_left brace_step lines [].

(** The lines one input line turns into. *)
Definition fix_line (line : text) : list text := brace_step [] line.

(** ** Console output and the file system *)

(** The templates given to [print_status]. *)
Inductive status_message : Type :=
| MSG_LINTING_COMPLETE
| MSG_USAGE
| MSG_FILE_NOT_FOUND
| MSG_NOT_C_FILE.   (* the literal template of line 140 *)

(** One printed line: [print_lint_error] prints
    [filename:lineno: message], [print_status] a template filled with its
    arguments. *)
Inductive out_line : Type :=
| LintError (filename : string) (lineno : nat) (message : string)
| StatusLine (message : status_message) (args : list string).

Inductive file_op : Type :=
| OpenRead (path : string)
| OpenWrite (path : string).

Inductive node_kind : Type :=
| RegularFile
| Directory.

(** The value of [os.linesep]. *)
Inductive line_separator : Type :=
| LineFeed                  (* POSIX *)
| CarriageReturnLineFeed.   (* Windows *)

(** The exceptions that opening, reading and writing a file raise.  The
    program catches none: the interpreter prints the traceback on the
    standard error and ends the process with status 1. *)
Inductive exn : Type :=
| OSError              (* [open] fails: permissions, a path that is gone *)
| UnicodeDecodeError.  (* the bytes of the file do not decode *)

(** What the program sees of its environment: what a path names (for
    [os.path.isfile] and [os.path.isdir]), the answer of [os.walk], the
    files on the disk, and what has been printed and opened so far.

    A path leads to a file ([w_node], links followed): two paths that lead
    to the same file see the same content, and a write through one is a
    write through the other.  The content of a file ([w_data]) is given by
    the characters that its bytes decode to under the encoding of the
    locale, before any translation of newlines, or by [None] when the bytes
    do not decode; the encoding is taken to be one-to-one on what decodes,
    so that the bytes change exactly when these characters do.  Whether
    [open] succeeds on a path is given for reading and for writing. *)
Record world : Type := mk_world {
  w_kind : string -> option node_kind;
  w_walk : string -> list (string * list string * list string);
  w_node : string -> nat;
  w_data : nat -> option text;
  w_readable : string -> bool;
  w_writable : string -> bool;
  w_linesep : line_separator;
  w_stdout : list out_line;
  w_ops : list file_op
}.

Definition set_data (w : world) (data : nat -> option text) : world :=
  mk_world (w_kind w) (w_walk w) (w_node w) data (w_readable w) (w_writable w)
           (w_linesep w) (w_stdout w) (w_ops w).

Definition set_stdout (w : world) (out : list out_line) : world :=
  mk_world (w_kind w) (w_walk w) (w_node w) (w_data w) (w_readable w) (w_writable w)
           (w_linesep w) out (w_ops w).

Definition set_ops (w : world) (ops : list file_op) : world :=
  mk_world (w_kind w) (w_walk w) (w_node w) (w_data w) (w_readable w) (w_writable w)
           (w_linesep w) (w_stdout w) ops.

(** A command returns, leaves the program through [sys.exit], or raises. *)
Inductive outcome (A : Type) : Type :=
| Returned (a : A)
| Exited (status : nat)
| Raised (e : exn).

Arguments Returned {A} a.
Arguments Exited {A} status.
Arguments Raised {A} e.

Definition io (A : Type) : Type := world -> outcome A * world.

Definition io_ret {A : Type} (a : A) : io A := fun w => (Returned a, w).

Definition io_bind {A B : Type} (c : io A) (f : A -> io B) : io B :=
  fun w =>
    match c w with
    | (Returned a, w') => f a w'
    | (Exited n, w') => (Exited n, w')
    | (Raised e, w') => (Raised e, w')
    end.

Declare Scope io_scope.
Delimit Scope io_scope with io.
Notation "x <- c ; k" := (io_bind c (fun x => k))
  (at level 62, c at next level, right associativity) : io_scope.
Notation "c ;, k" := (io_bind c (fun _ => k))
  (at level 62, right associativity) : io_scope.

Open Scope io_scope.

Definition sys_exit {A : Type} (status : nat) : io A := fun w => (Exited status, w).

(** [print]: the standard output is taken to be open and to encode every
    line, so that printing succeeds. *)
Definition print (l : out_line) : io unit :=
  fun w => (Returned tt, set_stdout w (w_stdout w ++ [l])).

Definition print_lint_error (filename : string) (lineno : nat) (message : string)
  : io unit := print (LintError filename lineno message).

Definition print_status (message : status_message) (args : list string) : io unit :=
  print (StatusLine message args).

(** Reading in text mode with the default [newline=None]: a carriage
    return followed by a line feed, and a carriage return alone, are read
    as one line feed. *)
Fixpoint universal (s : text) : text :=
  match s with
  | [] => []
  | c :: s' =>
      if Ascii.eqb c CR then
        match s' with
        | d :: s'' => if Ascii.eqb d LF then LF :: universal s'' else LF :: universal s'
        | [] => [LF]
        end
      else c :: universal s'
  end.

Definition os_linesep (w : world) : text :=
  match w_linesep w with
  | LineFeed => [LF]
  | CarriageReturnLineFeed => [CR; LF]
  end.

(** Writing in text mode with the default [newline=None]: every line feed
    is written as [os.linesep]. *)
Definition to_linesep (sep : text) (s : text) : text :=
  flat_map (fun c => if Ascii.eqb c LF then sep else [c]) s.

(** [f.readlines()]: the text cut after every newline. *)
Fixpoint split_lines (cur : text) (s : text) : list text :=
  match s with
  | [] => match cur with [] => [] | _ :: _ => [rev cur] end
  | c :: s' =>
      if Ascii.eqb c LF then rev (c :: cur) :: split_lines [] s'
      else split_lines (c :: cur) s'
  end.

(** [open(path)] (line 83 with ['r'], line 99) followed by
    [f.readlines()]: [open] raises when the file cannot be opened, and
    reading raises when its bytes do not decode. *)
Definition readlines (path : string) : io (list text) :=
  fun w =>
    if w_readable w path then
      match w_data w (w_node w path) with
      | Some raw =>
          (Returned (split_lines [] (universal raw)),
           set_ops w (w_ops w ++ [OpenRead path]))
      | None => (Raised UnicodeDecodeError, set_ops w (w_ops w ++ [OpenRead path]))
      end
    else (Raised OSError, w).

(** [open(path, 'w')] followed by [f.writelines(lines)]: [open] raises
    when the file cannot be opened for writing, and leaves it as it is;
    otherwise the file that the path leads to holds the lines, one after
    the other, with their newlines written as [os.linesep]. *)
Definition writelines (path : string) (lines : list text) : io unit :=
  fun w =>
    if w_writable w path then
      (Returned tt,
       set_ops
         (set_data w
            (fun n => if n =? w_node w path
                      then Some (to_linesep (os_linesep w) (concat lines))
                      else w_data w n))
         (w_ops w ++ [OpenWrite path]))
    else (Raised OSError, w).

Definition is_file (w : world) (path : string) : bool :=
  match w_kind w path with Some RegularFile => true | _ => false end.

Definition is_dir (w : world) (path : string) : bool :=
  match w_kind w path with Some Directory => true | _ => false end.

Definition isfile (path : string) : io bool := fun w => (Returned (is_file w path), w).
Definition isdir (path : string) : io bool := fun w => (Returned (is_dir w path), w).
Definition os_walk (path : string) : io (list (string * list string * list string)) :=
  fun w => (Returned (w_walk w path), w).

Fixpoint for_each {A : Type} (l : list A) (body : A -> io unit) : io unit :=
  match l with
  | [] => io_ret tt
  | x :: l' => body x ;, for_each l' body
  end.

(** ** File Orchestrator *)

Definition lint_and_fix_c_file (filename : string) : io unit :=
  lines <- readlines filename ;
  let lines := map fix_pointer_spacing lines in
  let lines := fix_brace_placement lines in
  writelines filename lines ;,
  print_status MSG_LINTING_COMPLETE [filename].

(** ** Line Linter *)

(** The body of the loop of [lint_c_code], on the lines printed so far. *)
Definition lint_line (filename : string) (lineno : nat) (line : text)
  (out : list out_line) : list out_line :=
  let out :=
    if found (re_search POINTER_SPACING_PATTERN line)
    then out ++ [LintError filename lineno MSG_POINTER_SPACING] else out in
  let out :=
    if found (re_search BRACE_ON_SAME_LINE_PATTERN line)
    then out ++ [LintError filename lineno MSG_BRACE_NEW_LINE] else out in
  let out :=
    if found (re_search OPENING_BRACE_NOT_ALONE_PATTERN line)
    then out ++ [LintError filename lineno MSG_OPENING_BRACE_ALONE] else out in
  let out :=
    if found (re_search CLOSING_BRACE_NOT_ALONE_PATTERN line)
    then out ++ [LintError filename lineno MSG_CLOSING_BRACE_ALONE] else out in
  out.

(** [for i, line in enumerate(lines)], from index [i]. *)
Fixpoint lint_loop (filename : string) (i : nat) (lines : list text)
  (out : list out_line) : list out_line :=
  match lines with
  | [] => out
  | line :: rest =>
      let lineno := i + 1 in
      lint_loop filename (S i) rest (lint_line filename lineno line out)
  end.

(** The diagnostics of a sequence of lines, in the order they are printed. *)
Definition lint_lines (filename : string) (lines : list text) : list out_line :=
  lint_loop filename 0 lines [].

Definition lint_c_code (filename : string) : io unit :=
  lines <- readlines filename ;
  for_each (lint_lines filename lines) print.

(** ** Discovery and command line *)

Definition has_c_extension (name : string) : bool :=
  existsb (endswith (T name)) C_EXTENSIONS.

(** [os.path.join(root, f)] *)
Definition path_join (root f : string) : string :=
  if starts_with (T "/") (T f) then f
  else if (String.eqb root "" || endswith (T root) (T "/"))%bool then (root ++ f)%string
  else (root ++ "/" ++ f)%string.

Definition get_all_c_files (path : string) : io (list string) :=
  entries <- os_walk path ;
  io_ret
    (fold_left
       (fun c_files '(root, _, files) =>
          fold_left
            (fun c_files f =>
               if has_c_extension f then c_files ++ [path_join root f] else c_files)
            files c_files)
       entries []).

(** [str.lower()] on code points below 256. *)
Definition lower_char (c : ascii) : ascii :=
  if (between 65 90 c || between 192 214 c || between 216 222 c)%bool
  then ascii_of_nat (code c + 32) else c.

Definition lower (s : string) : string :=
  string_of_list_ascii (map lower_char (T s)).

Definition main (argv : list string) : io unit :=
  if length argv <? 3 then
    print_status MSG_USAGE [] ;, sys_exit 1
  else
    let target := nth 1 argv ""%string in
    let do_fix := String.eqb (lower (nth 2 argv ""%string)) "true" in
    files_to_lint <-
      (is_f <- isfile target ;
       if (is_f : bool) then
         if has_c_extension target then io_ret [target]
         else print_status MSG_NOT_C_FILE [target] ;, sys_exit 1
       else
         is_d <- isdir target ;
         if (is_d : bool) then get_all_c_files target
         else print_status MSG_FILE_NOT_FOUND [target] ;, sys_exit 1) ;
    for_each files_to_lint
      (fun file =>
         (if do_fix then lint_and_fix_c_file file else io_ret tt) ;,
         lint_c_code file).

(** The exit status of the process. *)
Definition exit_status (o : outcome unit) : nat :=
  match o with
  | Returned _ => 0
  | Exited n => n
  | Raised _ => 1
  end.

Close Scope io_scope.

(** ** Reading the diagnostics *)

(** The place of a message in the fixed order of the four checks. *)
Definition rank (message : string) : nat :=
  if String.eqb message MSG_POINTER_SPACING then 0
  else if String.eqb message MSG_BRACE_NEW_LINE then 1
  else if String.eqb message MSG_OPENING_BRACE_ALONE then 2
  else if String.eqb message MSG_CLOSING_BRACE_ALONE then 3
  else 4.

(** [d1] is printed for an earlier line than [d2], or for the same line by
    an earlier check. *)
Definition diag_lt (d1 d2 : out_line) : Prop :=
  match d1, d2 with
  | LintError _ n1 m1, LintError _ n2 m2 =>
      n1 < n2 \/ (n1 = n2 /\ rank m1 < rank m2)
  | _, _ => False
  end.

Definition on_line (n : nat) (d : out_line) : bool :=
  match d with
  | LintError _ k _ => k =? n
  | StatusLine _ _ => false
  end.

(** The check that prints [message], on [line]. *)
Definition fires (message : string) (line : text) : bool :=
  match rank message with
  | 0 => found (re_search POINTER_SPACING_PATTERN line)
  | 1 => found (re_search BRACE_ON_SAME_LINE_PATTERN line)
  | 2 => found (re_search OPENING_BRACE_NOT_ALONE_PATTERN line)
  | 3 => found (re_search CLOSING_BRACE_NOT_ALONE_PATTERN line)
  | _ => false
  end.

(** ** Reading the exit status *)

Definition target_of (argv : list string) : string := nth 1 argv ""%string.



(** The body of the last loop of [main]. *)
Definition process_file (do_fix : bool) (file : string) : io unit :=
  io_bind (if do_fix then lint_and_fix_c_file file else io_ret tt)
          (fun _ => lint_c_code file).

(** The world after one more printed line. *)
Definition printed (w : world) (l : out_line) : world :=
  set_stdout w (w_stdout w ++ [l]).

(** ** Reading the matches of the header pattern *)

(** The match of [FUNCTION_BRACE_PATTERN] on [y ++ ")" :: z1] that ends
    group 1 at this parenthesis, [z1] being whitespace and then an opening
    brace followed by [z2]: group 2 starts after the whitespace that
    follows the brace and runs to the end of the line. *)
Definition header_match (bef y z1 z2 : text) : rmatch :=
  let z3 := drop_while is_space z2 in
  mk_rmatch bef (drop_while is_dot z3)
    [(0, firstn (length (y ++ ")"%char :: z1) - length (drop_while is_dot z3))
           (y ++ ")"%char :: z1));
     (2, take_while is_dot z3);
     (1, y ++ [")"%char])].

(** [z] starts with a closing parenthesis, whitespace and an opening brace. *)
Definition header_here (z : text) : bool :=
  match z with
  | c :: z1 =>
      Ascii.eqb c ")" &&
      match drop_while is_space z1 with
      | d :: _ => Ascii.eqb d "{"
      | [] => false
      end
  | [] => false
  end.

(** ** Reading the matches of the pointer pattern *)

(** The match of [POINTER_SPACING_PATTERN] at a position, computed without
    backtracking: at a word boundary, the whole word that starts here, all
    the whitespace after it, an asterisk, all the whitespace after it, and
    the whole word that follows. *)
Definition pointer_at (bef aft : text) : option rmatch :=
  if at_boundary bef aft then
    let w1 := take_while is_word aft in
    let s1 := take_while is_space (drop_while is_word aft) in
    match w1, drop_while is_space (drop_while is_word aft) with
    | _ :: _, c :: r3 =>
        if Ascii.eqb c "*" then
          let s2 := take_while is_space r3 in
          let w2 := take_while is_word (drop_while is_space r3) in
          match w2 with
          | _ :: _ =>
              Some (mk_rmatch bef (drop_while is_word (drop_while is_space r3))
                      [(0, w1 ++ s1 ++ T "*" ++ s2 ++ w2); (2, w2); (1, w1)])
          | [] => None
          end
        else None
    | _, _ => None
    end
  else None.

(** The match of the pointer pattern on [w1 ++ s1 ++ "*" ++ s2 ++ w2]
    followed by [rest]. *)
Definition pointer_hit (bef w1 s1 s2 w2 rest : text) : rmatch :=
  mk_rmatch bef rest [(0, w1 ++ s1 ++ T "*" ++ s2 ++ w2); (2, w2); (1, w1)].

(** The text of the subject that a piece of the scan covers. *)
Definition raw (pc : piece) : text :=
  match pc with
  | Copy c => [c]
  | Hit m => group 0 (m_groups m)
  end.

(** A piece that the Normalizer leaves as it is: a copied character, or a
    match that already reads word, one space, asterisk, word. *)
Definition normal_piece (pc : piece) : Prop :=
  match pc with
  | Copy _ => True
  | Hit m =>
      exists w1 w2,
        m_groups m = [(0, w1 ++ T " *" ++ w2); (2, w2); (1, w1)]
  end.

(** The Normalizer from a position inside a line. *)
Definition fix_from (bef aft : text) : text :=
  flat_map (expand POINTER_SPACING_REPLACEMENT)
           (scan_from POINTER_SPACING_PATTERN 0 bef aft).

(** An occurrence of the pointer shape starts at a position: what follows
    is a whole word [w1], whitespace [s1], an asterisk, whitespace [s2] and
    a whole word [w2], then [rest]. *)
Definition occurrence_here (bef aft w1 s1 s2 w2 rest : text) : Prop :=
  aft = w1 ++ s1 ++ T "*" ++ s2 ++ w2 ++ rest /\
  w1 <> [] /\ w2 <> [] /\
  forallb is_word w1 = true /\ forallb is_space s1 = true /\
  forallb is_space s2 = true /\ forallb is_word w2 = true /\
  hd_word bef = false /\ hd_word rest = false.

(** [s] holds an occurrence of the pointer shape after [pre]. *)
Definition pointer_occurrence (s pre w1 s1 s2 w2 post : text) : Prop :=
  exists aft, s = pre ++ aft /\ occurrence_here (rev pre) aft w1 s1 s2 w2 post.

(** The scan, left to right and without overlap: where an occurrence
    starts it becomes a match and the scan resumes behind it; where none
    starts the character is copied. *)
Inductive Scanned : text -> text -> list piece -> Prop :=
| Scanned_end bef : Scanned bef [] []
| Scanned_copy bef c t ps :
    (forall w1 s1 s2 w2 rest, ~ occurrence_here bef (c :: t) w1 s1 s2 w2 rest) ->
    Scanned (c :: bef) t ps ->
    Scanned bef (c :: t) (Copy c :: ps)
| Scanned_hit bef aft w1 s1 s2 w2 rest ps :
    occurrence_here bef aft w1 s1 s2 w2 rest ->
    Scanned (rev (w1 ++ s1 ++ T "*" ++ s2 ++ w2) ++ bef) rest ps ->
    Scanned bef aft (Hit (pointer_hit bef w1 s1 s2 w2 rest) :: ps).

(** Every occurrence of the pointer shape in [s] has exactly one space
    before the asterisk and none after it. *)
Definition all_occurrences_spaced (s : text) : Prop :=
  forall pre w1 s1 s2 w2 post,
    pointer_occurrence s pre w1 s1 s2 w2 post -> s1 = T " " /\ s2 = [].

(** What the Normalizer writes for a piece of the scan. *)
Definition normalized (pc : piece) : text :=
  match pc with
  | Copy c => [c]
  | Hit m => group 1 (m_groups m) ++ T " *" ++ group 2 (m_groups m)
  end.

(** ** Sample inputs *)

(** A directory [proj] with a subdirectory and no C source in it. *)
Definition sample_world : world :=
  mk_world
    (fun p => if String.eqb p "proj" then Some Directory else None)
    (fun p => if String.eqb p "proj"
              then [("proj"%string, ["sub"%string], ["README.md"%string; "b.txt"%string]);
                    ("proj/sub"%string, [], ["notes.txt"%string])]
              else [])
    (fun _ => 0)
    (fun _ => Some [])
    (fun _ => true)
    (fun _ => true)
    LineFeed
    []
    [].

(** A file that follows the conventions. *)
Definition sample_clean_lines : list text :=
  [T "int main(void)" ++ [LF]; T "{" ++ [LF]; T "    return 0;" ++ [LF];
   T "}" ++ [LF]].

(** A directory with one C source, with violations, and one other file. *)
Definition sample_sources : world :=
  mk_world
    (fun p => if String.eqb p "src" then Some Directory
              else if String.eqb p "src/a.c" then Some RegularFile
              else if String.eqb p "src/b.txt" then Some RegularFile
              else None)
    (fun p => if String.eqb p "src"
              then [("src"%string, [], ["a.c"%string; "b.txt"%string])]
              else [])
    (fun p => if String.eqb p "src/a.c" then 1
              else if String.eqb p "src/b.txt" then 2
              else 0)
    (fun n => if n =? 1 then Some (T "int* f() { x } y" ++ [LF]) else Some [])
    (fun _ => true)
    (fun _ => true)
    LineFeed
    []
    [].



(** A file [main.c] that follows the conventions, with the line ends of
    Windows, on a system whose line separator is the line feed. *)
Definition sample_crlf : world :=
  mk_world
    (fun p => if String.eqb p "main.c" then Some RegularFile else None)
    (fun _ => [])
    (fun p => if String.eqb p "main.c" then 1 else 0)
    (fun n => if n =? 1
              then Some (T "int main(void)" ++ [CR; LF] ++ T "{" ++ [CR; LF]
                           ++ T "}" ++ [CR; LF])
              else Some [])
    (fun _ => true)
    (fun _ => true)
    LineFeed
    []
    [].

(** The characters of a text that are not whitespace. *)
Definition content (s : text) : text := filter not_space s.

(** A line as [readlines] yields it: a newline can only be its last
    character. *)
Definition single_line (line : text) : Prop :=
  forall a b, line = a ++ LF :: b -> b = [].

(** ** Reading lines and their terminators *)

(** A complete line: text without a newline, then the newline. *)
Definition terminated (line : text) : Prop :=
  exists body, line = body ++ [LF] /\ forallb is_dot body = true.

(** The lines of a text file: complete lines, the last of which may lack
    its newline (and is then not empty). *)
Inductive Lines : list text -> Prop :=
| Lines_nil : Lines []
| Lines_last l : l <> [] -> forallb is_dot l = true -> Lines [l]
| Lines_cons l ls : terminated l -> Lines ls -> Lines (l :: ls).

Definition is_hit (pc : piece) : bool :=
  match pc with
  | Hit _ => true
  | Copy _ => false
  end.

(** The whole fix pass on the lines of a file. *)
Definition fix_pass (lines : list text) : list text :=
  fix_brace_placement (map fix_pointer_spacing lines).

(** ** Reading a run of the program *)

(** The C sources among the entries of a walk, in the order of the walk. *)
Definition walk_c_files (entries : list (string * list string * list string))
  : list string :=
  flat_map (fun '(root, _, files) => map (path_join root) (filter has_c_extension files))
           entries.

(** The files that [main] goes through when it finds no error. *)
Definition selected_files (w : world) (argv : list string) : list string :=
  if is_file w (target_of argv) then [target_of argv]
  else walk_c_files (w_walk w (target_of argv)).

(** The value of [do_fix]. *)
Definition fix_requested (argv : list string) : bool :=
  String.eqb (lower (nth 2 argv ""%string)) "true".

(** The text that reading [path] delivers, when the file opens and its
    bytes decode. *)
Definition file_text (w : world) (path : string) : option text :=
  if w_readable w path then option_map universal (w_data w (w_node w path))
  else None.

(** The lines that [readlines] yields for [path]. *)
Definition file_lines (w : world) (path : string) : list text :=
  match file_text w path with
  | Some s => split_lines [] s
  | None => []
  end.

Definition is_some {A : Type} (o : option A) : bool :=
  match o with
  | Some _ => true
  | None => false
  end.




(** Two worlds with the same paths, links and permissions, in which the
    same files decode. *)
Definition same_files (w w' : world) : Prop :=
  w_kind w' = w_kind w /\ w_walk w' = w_walk w /\ w_node w' = w_node w /\
  w_readable w' = w_readable w /\ w_writable w' = w_writable w /\
  w_linesep w' = w_linesep w /\
  forall n, is_some (w_data w' n) = is_some (w_data w n).





(** Two paths of [sample_sources] made to lead to one file: [src/b.txt] is
    a link to [src/a.c]. *)
Definition sample_linked : world :=
  mk_world (w_kind sample_sources) (w_walk sample_sources)
           (fun p => if String.eqb p "src/a.c" then 1
                     else if String.eqb p "src/b.txt" then 1
                     else 0)
           (w_data sample_sources) (w_readable sample_sources)
           (w_writable sample_sources) LineFeed [] [].


(** A diagnostic moved down by [i] lines. *)
Definition renumber (i : nat) (d : out_line) : out_line :=
  match d with
  | LintError f n m => LintError f (i + n) m
  | StatusLine m a => StatusLine m a
  end.

(** A file with a function body on the line of its header. *)
Definition sample_inline_lines : list text :=
  (T "int f(int a) { return a; }" ++ [LF]) :: sample_clean_lines.

(** * Properties *)

(** ** Tactics *)

(** Flatten nested appends. *)
Ltac norm_app := repeat (progress (simpl; repeat rewrite <- app_assoc)).
Ltac norm_app_in H := repeat (progress (simpl in H; repeat rewrite <- app_assoc in H)).

(** Take a [Match] of a concrete pattern apart, constructor by constructor. *)
Ltac inv_match :=
  repeat match goal with
    | H : Match (Cat _ _) _ _ _ _ _ |- _ => inversion H; subst; clear H
    | H : Match (Chr _) _ _ _ _ _ |- _ => inversion H; subst; clear H
    | H : Match (Cls _) _ _ _ _ _ |- _ => inversion H; subst; clear H
    | H : Match (Rep _) _ _ _ _ _ |- _ => inversion H; subst; clear H
    | H : Match (Grp _ _) _ _ _ _ _ |- _ => inversion H; subst; clear H
    | H : Match Bol _ _ _ _ _ |- _ => inversion H; subst; clear H
    | H : Match Wordb _ _ _ _ _ |- _ => inversion H; subst; clear H
    | H : Match (Opt _) _ _ _ _ _ |- _ => inversion H; subst; clear H
    end.


(** ** Characters and runs *)

Lemma space_not_word (c : ascii) : is_space c = true -> is_word c = false.
Proof.
  destruct c as [[] [] [] [] [] [] [] []]; vm_compute; congruence.
Qed.

Lemma word_not_space (c : ascii) : is_word c = true -> is_space c = false.
Proof.
  intros Hw. destruct (is_space c) eqn:Hs; [|reflexivity].
  apply space_not_word in Hs. congruence.
Qed.

(** A character of a class is not the given literal. *)
Ltac not_literal c lit :=
  let E := fresh "E" in
  destruct (Ascii.eqb c lit) eqn:E;
  [apply Ascii.eqb_eq in E; subst c; vm_compute; congruence | reflexivity].

Lemma word_not_star (c : ascii) : is_word c = true -> Ascii.eqb c "*" = false.
Proof. not_literal c "*"%char. Qed.

Lemma space_not_star (c : ascii) : is_space c = true -> Ascii.eqb c "*" = false.
Proof. not_literal c "*"%char. Qed.

Lemma space_not_lbrace (c : ascii) : is_space c = true -> Ascii.eqb c "{" = false.
Proof. not_literal c "{"%char. Qed.

Lemma space_not_rbrace (c : ascii) : is_space c = true -> Ascii.eqb c "}" = false.
Proof. not_literal c "}"%char. Qed.

Lemma space_not_rparen (c : ascii) : is_space c = true -> Ascii.eqb c ")" = false.
Proof. not_literal c ")"%char. Qed.

Create HintDb chars discriminated.
#[local] Hint Resolve space_not_word word_not_space word_not_star space_not_star
  space_not_lbrace space_not_rbrace space_not_rparen : chars.

(** Maximal runs of the characters of a class. *)
Section Runs.

Variable p : ascii -> bool.

Lemma take_drop_while (s : text) :
  take_while p s ++ drop_while p s = s.
Proof.
  induction s as [|c s IH]; simpl; [reflexivity|].
  destruct (p c); simpl; [now rewrite IH | reflexivity].
Qed.

Lemma take_while_all (s : text) :
  forallb p (take_while p s) = true.
Proof.
  induction s as [|c s IH]; simpl; [reflexivity|].
  destruct (p c) eqn:E; simpl; [now rewrite E | reflexivity].
Qed.

Lemma drop_while_head (s : text) (c : ascii) (t : text) :
  drop_while p s = c :: t -> p c = false.
Proof.
  induction s as [|d s IH]; simpl; [discriminate|].
  destruct (p d) eqn:E; [assumption|]. intros H. now inversion H; subst.
Qed.

(** A run followed by a character outside the class is the maximal run. *)
Lemma take_while_app (x rest : text) :
  forallb p x = true ->
  match rest with c :: _ => p c = false | [] => True end ->
  take_while p (x ++ rest) = x.
Proof.
  intros Hx Hr. induction x as [|c x IH]; simpl in *.
  - destruct rest as [|c r]; simpl; [reflexivity|]. now rewrite Hr.
  - apply andb_true_iff in Hx as [Hc Hx]. rewrite Hc. now rewrite IH.
Qed.

Lemma drop_while_app (x rest : text) :
  forallb p x = true ->
  match rest with c :: _ => p c = false | [] => True end ->
  drop_while p (x ++ rest) = rest.
Proof.
  intros Hx Hr. induction x as [|c x IH]; simpl in *.
  - destruct rest as [|c r]; simpl; [reflexivity|]. now rewrite Hr.
  - apply andb_true_iff in Hx as [Hc Hx]. rewrite Hc. now apply IH.
Qed.

Lemma drop_while_all (s : text) :
  forallb p s = true -> drop_while p s = [].
Proof.
  induction s as [|c s IH]; simpl; [reflexivity|].
  intros H. apply andb_true_iff in H as [Hc Hs]. rewrite Hc. auto.
Qed.

Lemma drop_while_nil_iff (s : text) :
  drop_while p s = [] <-> forallb p s = true.
Proof.
  split; [|apply drop_while_all].
  induction s as [|c s IH]; simpl; [reflexivity|].
  destruct (p c); [exact IH | discriminate].
Qed.

Lemma drop_while_keep (u v : text) :
  drop_while p u <> [] -> drop_while p (u ++ v) = drop_while p u ++ v.
Proof.
  induction u as [|c u IH]; simpl; [congruence|].
  destruct (p c); [apply IH | reflexivity].
Qed.

Lemma drop_while_snoc (u : text) (d : ascii) :
  p d = false -> exists t, drop_while p (u ++ [d]) = t ++ [d].
Proof.
  intros Hd. induction u as [|c u IH]; simpl.
  - rewrite Hd. now exists [].
  - destruct (p c); [assumption|]. now exists (c :: u).
Qed.

End Runs.

Lemma text_eqb_eq (a b : text) : text_eqb a b = true <-> a = b.
Proof.
  unfold text_eqb. destruct (list_eq_dec ascii_dec a b); split; congruence.
Qed.

(** The text consumed between two positions of one subject. *)
Lemma firstn_consumed (x rest : text) :
  firstn (length (x ++ rest) - length rest) (x ++ rest) = x.
Proof.
  rewrite length_app, Nat.add_sub.
  rewrite firstn_app, Nat.sub_diag, firstn_all. simpl. apply app_nil_r.
Qed.

(** ** Greedy repetition *)

Section Greedy.

Variables (p : ascii -> bool) (k : cont).

Lemma star_inv (bef aft : text) (g : caps) (r : result) :
  star p k bef aft g = Some r ->
  exists y z, aft = y ++ z /\ forallb p y = true /\ k (rev y ++ bef) z g = Some r.
Proof.
  revert bef. induction aft as [|c aft IH]; intros bef H; simpl in H.
  - exists [], []. auto.
  - destruct (p c) eqn:Hc.
    + destruct (star p k (c :: bef) aft g) eqn:Hs.
      * inversion H; subst. destruct (IH _ Hs) as (y & z & -> & Hy & Hk).
        exists (c :: y), z. simpl. rewrite Hc, Hy, <- app_assoc. auto.
      * exists [], (c :: aft). auto.
    + exists [], (c :: aft). auto.
Qed.

Lemma star_complete (y z bef : text) (g : caps) :
  forallb p y = true ->
  k (rev y ++ bef) z g <> None ->
  star p k bef (y ++ z) g <> None.
Proof.
  revert bef. induction y as [|c y IH]; intros bef Hy Hk; simpl in *.
  - destruct z as [|d z]; simpl; [assumption|].
    destruct (p d); [|assumption].
    destruct (star p k (d :: bef) z g); [discriminate | assumption].
  - apply andb_true_iff in Hy as [Hc Hy]. rewrite Hc.
    rewrite <- app_assoc in Hk. simpl in Hk.
    specialize (IH (c :: bef) Hy Hk).
    destruct (star p k (c :: bef) (y ++ z) g); [discriminate | contradiction].
Qed.

(** The longest run wins when the continuation accepts it. *)
Lemma star_greedy_some (bef aft : text) (g : caps) (r : result) :
  k (rev (take_while p aft) ++ bef) (drop_while p aft) g = Some r ->
  star p k bef aft g = Some r.
Proof.
  revert bef. induction aft as [|c aft IH]; intros bef H; simpl in *; [assumption|].
  destruct (p c) eqn:Hc; [|assumption].
  simpl in H. rewrite <- app_assoc in H. simpl in H.
  now rewrite (IH _ H).
Qed.

(** Backtracking is futile when the continuation rejects every position
    that is followed by a character of the class. *)
Lemma star_greedy_only (bef aft : text) (g : caps) :
  (forall b c t, p c = true -> k b (c :: t) g = None) ->
  star p k bef aft g = k (rev (take_while p aft) ++ bef) (drop_while p aft) g.
Proof.
  intros Hk. revert bef. induction aft as [|c aft IH]; intros bef; simpl; [reflexivity|].
  destruct (p c) eqn:Hc; [|reflexivity].
  rewrite IH. simpl. rewrite <- app_assoc. simpl.
  destruct (k (rev (take_while p aft) ++ c :: bef) (drop_while p aft) g); [reflexivity|].
  now apply Hk.
Qed.

Lemma star_none (bef aft : text) (g : caps) :
  (forall y z, aft = y ++ z -> forallb p y = true -> k (rev y ++ bef) z g = None) ->
  star p k bef aft g = None.
Proof.
  intros H. destruct (star p k bef aft g) eqn:E; [|reflexivity].
  apply star_inv in E as (y & z & Ha & Hy & Hk).
  rewrite (H y z Ha Hy) in Hk. discriminate.
Qed.

(** The last position of the run that the continuation accepts wins. *)
Lemma star_last (y z bef : text) (g : caps) (r : result) :
  forallb p y = true ->
  k (rev y ++ bef) z g = Some r ->
  (forall u z', u <> [] -> z = u ++ z' -> forallb p u = true ->
                k (rev (y ++ u) ++ bef) z' g = None) ->
  star p k bef (y ++ z) g = Some r.
Proof.
  revert bef. induction y as [|c y IH]; intros bef Hy Hk Hlater; simpl in *.
  - destruct z as [|d z]; simpl; [assumption|].
    destruct (p d) eqn:Hd; [|assumption].
    rewrite star_none; [assumption|].
    intros y' z' Hz Hy'. subst z.
    specialize (Hlater (d :: y') z'). simpl in Hlater.
    rewrite <- app_assoc in Hlater. simpl in Hlater.
    apply Hlater; [discriminate | reflexivity | now rewrite Hd].
  - apply andb_true_iff in Hy as [Hc Hy]. rewrite Hc.
    rewrite <- app_assoc in Hk. simpl in Hk.
    rewrite (IH (c :: bef) Hy Hk); [reflexivity|].
    intros u z' Hu Hz Hpu. specialize (Hlater u z' Hu Hz Hpu).
    rewrite <- app_assoc in Hlater. exact Hlater.
Qed.

End Greedy.

(** ** Soundness and completeness of the matcher *)

Lemma run_sound (r : regex) :
  forall (k : cont) bef aft g res,
    run r k bef aft g = Some res ->
    exists x rest g',
      aft = x ++ rest /\ Match r bef x rest g g' /\
      k (rev x ++ bef) rest g' = Some res.
Proof.
  induction r as [c|p|p|r1 IH1 r2 IH2|r IH|n r IH| |]; intros k bef aft g res H; simpl in H.
  - destruct aft as [|x aft]; [discriminate|].
    destruct (Ascii.eqb x c) eqn:E; [|discriminate].
    apply Ascii.eqb_eq in E. subst x.
    exists [c], aft, g. repeat split; [constructor | assumption].
  - destruct aft as [|x aft]; [discriminate|].
    destruct (p x) eqn:E; [|discriminate].
    exists [x], aft, g. repeat split; [now constructor | assumption].
  - apply star_inv in H as (y & z & -> & Hy & Hk).
    exists y, z, g. repeat split; [now constructor | assumption].
  - apply IH1 in H as (x1 & rest1 & g1 & -> & M1 & H).
    apply IH2 in H as (x2 & rest & g2 & -> & M2 & H).
    exists (x1 ++ x2), rest, g2. rewrite <- app_assoc. split; [reflexivity|].
    split; [econstructor; eassumption|].
    now rewrite rev_app_distr, <- app_assoc.
  - destruct (run r k bef aft g) eqn:E.
    + inversion H; subst. apply IH in E as (x & rest & g' & -> & M & Hk).
      exists x, rest, g'. repeat split; [now constructor | assumption].
    + exists [], aft, g. repeat split; [apply M_Opt_none | assumption].
  - apply IH in H as (x & rest & g' & -> & M & Hk).
    rewrite firstn_consumed in Hk.
    exists x, rest, ((n, x) :: g'). repeat split; [now constructor | assumption].
  - destruct bef; [|discriminate].
    exists [], aft, g. repeat split; [constructor | assumption].
  - destruct (at_boundary bef aft) eqn:E; [|discriminate].
    exists [], aft, g. repeat split; [now constructor | assumption].
Qed.

Lemma run_complete r bef x rest g g' :
  Match r bef x rest g g' ->
  forall k : cont, k (rev x ++ bef) rest g' <> None -> run r k bef (x ++ rest) g <> None.
Proof.
  induction 1 as [c bef rest g|p c bef rest g Hp|p x bef rest g Hx
                 |r1 r2 bef x1 x2 rest g g1 g2 M1 IH1 M2 IH2
                 |r bef x rest g g' M IH|r bef rest g
                 |n r bef x rest g g' M IH|rest g|bef rest g Hb];
    intros k Hk; simpl in *.
  - now rewrite Ascii.eqb_refl.
  - now rewrite Hp.
  - now apply star_complete.
  - rewrite <- app_assoc. apply IH1. apply IH2.
    now rewrite rev_app_distr, <- app_assoc in Hk.
  - specialize (IH k Hk). destruct (run r k bef (x ++ rest) g); [discriminate | contradiction].
  - destruct (run r k bef rest g); [discriminate | assumption].
  - apply IH. now rewrite firstn_consumed.
  - assumption.
  - now rewrite Hb.
Qed.

Lemma match_at_inv r bef aft m :
  match_at r bef aft = Some m ->
  exists x g,
    aft = x ++ m_rest m /\ m_before m = bef /\ m_groups m = (0, x) :: g /\
    Match r bef x (m_rest m) [] g.
Proof.
  unfold match_at. intros H.
  destruct (run (Grp 0 r) ret bef aft []) as [[[b a] g0]|] eqn:E; [|discriminate].
  inversion H; subst m; clear H. simpl.
  apply run_sound in E as (x & rest & g' & -> & M & Hk).
  unfold ret in Hk. inversion Hk; subst.
  inversion M as [| | | | | |n0 r0 b0 x0 a0 g1 g2 M0| |]; subst.
  exists x, g2. auto.
Qed.

Lemma match_at_complete r bef x rest g :
  Match r bef x rest [] g -> match_at r bef (x ++ rest) <> None.
Proof.
  intros M. unfold match_at.
  assert (H : run (Grp 0 r) ret bef (x ++ rest) [] <> None).
  { apply run_complete with (g' := (0, x) :: g); [now constructor | discriminate]. }
  destruct (run (Grp 0 r) ret bef (x ++ rest) []) as [[[b a] g0]|];
    [discriminate | contradiction].
Qed.

Lemma search_inv r : forall bef aft m,
  search_from r bef aft = Some m ->
  exists a b,
    aft = a ++ b /\ match_at r (rev a ++ bef) b = Some m /\
    forall a1 a2, a = a1 ++ a2 -> a2 <> [] ->
                  match_at r (rev a1 ++ bef) (a2 ++ b) = None.
Proof.
  intros bef aft. revert bef. induction aft as [|c aft IH]; intros bef m H; simpl in H.
  - destruct (match_at r bef []) eqn:E; [|discriminate].
    inversion H; subst. exists [], []. repeat split; auto.
    intros a1 a2 Ha. symmetry in Ha. apply app_eq_nil in Ha as [_ ->]. congruence.
  - destruct (match_at r bef (c :: aft)) eqn:E.
    + inversion H; subst. exists [], (c :: aft). repeat split; auto.
      intros a1 a2 Ha. symmetry in Ha. apply app_eq_nil in Ha as [_ ->]. congruence.
    + apply IH in H as (a & b & -> & Hm & Hmin).
      exists (c :: a), b. simpl. rewrite <- app_assoc. repeat split; auto.
      intros a1 a2 Ha Hne. destruct a1 as [|d a1]; simpl in *.
      * subst a2. exact E.
      * inversion Ha; subst. rewrite <- app_assoc. simpl. now apply Hmin.
Qed.

Lemma search_complete r : forall a b bef,
  match_at r (rev a ++ bef) b <> None -> search_from r bef (a ++ b) <> None.
Proof.
  induction a as [|c a IH]; intros b bef H; simpl in *.
  - destruct b as [|d b]; simpl; destruct (match_at r bef _); congruence.
  - destruct (match_at r bef (c :: a ++ b)); [discriminate|].
    apply IH. now rewrite <- app_assoc in H.
Qed.

(** A search that starts where a match exists returns that match. *)
Lemma search_here r bef aft m :
  match_at r bef aft = Some m -> search_from r bef aft = Some m.
Proof.
  intros H. destruct aft; simpl; now rewrite H.
Qed.

Lemma found_search r s :
  found (re_search r s) = true <->
  exists a b x rest g, s = a ++ b /\ b = x ++ rest /\ Match r (rev a) x rest [] g.
Proof.
  unfold re_search. split.
  - destruct (search_from r [] s) as [m|] eqn:E; [|discriminate]. intros _.
    apply search_inv in E as (a & b & -> & Hm & _). rewrite app_nil_r in Hm.
    apply match_at_inv in Hm as (x & g & Hb & _ & _ & M).
    exists a, b, x, (m_rest m), g. auto.
  - intros (a & b & x & rest & g & -> & -> & M).
    assert (H : search_from r [] (a ++ x ++ rest) <> None).
    { apply search_complete. rewrite app_nil_r. eapply match_at_complete; eauto. }
    destruct (search_from r [] (a ++ x ++ rest)); [reflexivity | contradiction].
Qed.

(** ** The order of the diagnostics *)

(** The sixteen outcomes of the four checks on a line. *)
Ltac four_checks line :=
  destruct (found (re_search POINTER_SPACING_PATTERN line)) eqn:?;
  destruct (found (re_search BRACE_ON_SAME_LINE_PATTERN line)) eqn:?;
  destruct (found (re_search OPENING_BRACE_NOT_ALONE_PATTERN line)) eqn:?;
  destruct (found (re_search CLOSING_BRACE_NOT_ALONE_PATTERN line)) eqn:?.

Lemma lint_line_app filename lineno line out :
  lint_line filename lineno line out = out ++ lint_line filename lineno line [].
Proof.
  unfold lint_line.
  four_checks line;
    simpl; repeat rewrite <- app_assoc; simpl; try reflexivity;
    now rewrite app_nil_r.
Qed.

Lemma lint_loop_app filename : forall lines i out,
  lint_loop filename i lines out = out ++ lint_loop filename i lines [].
Proof.
  induction lines as [|l lines IH]; intros i out; simpl.
  - now rewrite app_nil_r.
  - rewrite IH, (IH _ (lint_line filename (i + 1) l [])).
    rewrite (lint_line_app filename (i + 1) l out). now rewrite <- app_assoc.
Qed.

Lemma lint_loop_cons filename i line rest out :
  lint_loop filename i (line :: rest) out =
  out ++ lint_line filename (i + 1) line [] ++ lint_loop filename (S i) rest [].
Proof.
  rewrite lint_loop_app. simpl. now rewrite lint_loop_app.
Qed.

(** What one line prints: its own number, one of the four messages, and
    only for a check that fires. *)
Lemma lint_line_In filename lineno line d :
  In d (lint_line filename lineno line []) <->
  exists message,
    d = LintError filename lineno message /\ rank message < 4 /\
    fires message line = true.
Proof.
  unfold lint_line, fires.
  four_checks line;
    simpl; (split;
     [ intros H; repeat (destruct H as [H|H]; [subst d; eexists; split; [reflexivity|]; vm_compute; split; [lia | reflexivity]|]); contradiction
     | intros (m & -> & Hr & Hf);
       destruct (rank m) as [|[|[|[|k]]]] eqn:Hm; try lia; try discriminate;
       unfold rank in Hm;
       repeat match type of Hm with
              | (if String.eqb ?a ?b then _ else _) = _ =>
                  let E := fresh "E" in
                  destruct (String.eqb a b) eqn:E;
                  [apply String.eqb_eq in E; subst m | ]
              end; try discriminate; simpl; auto 6 ]).
Qed.

Lemma lint_line_sorted filename lineno line :
  StronglySorted diag_lt (lint_line filename lineno line []).
Proof.
  unfold lint_line.
  four_checks line;
    simpl;
    repeat (first [ apply SSorted_nil | apply SSorted_cons | apply Forall_nil
                  | apply Forall_cons ]);
    right; split; try reflexivity; vm_compute; lia.
Qed.

Lemma lint_line_length filename lineno line :
  length (lint_line filename lineno line []) <= 4.
Proof.
  unfold lint_line.
  four_checks line;
    simpl; lia.
Qed.

Lemma lint_loop_In filename : forall lines i d,
  In d (lint_loop filename i lines []) <->
  exists k line message,
    nth_error lines k = Some line /\
    d = LintError filename (i + k + 1) message /\ rank message < 4 /\
    fires message line = true.
Proof.
  induction lines as [|l lines IH]; intros i d.
  - simpl. split; [contradiction|]. intros (k & line & m & H & _).
    destruct k; discriminate.
  - rewrite lint_loop_cons. simpl. rewrite in_app_iff, lint_line_In, IH. split.
    + intros [(m & -> & Hr & Hf)|(k & line & m & Hn & -> & Hr & Hf)].
      * exists 0, l, m. rewrite Nat.add_0_r. auto.
      * exists (S k), line, m. simpl. replace (i + S k + 1) with (S i + k + 1) by lia. auto.
    + intros (k & line & m & Hn & -> & Hr & Hf). destruct k as [|k]; simpl in Hn.
      * inversion Hn; subst. left. exists m. rewrite Nat.add_0_r. auto.
      * right. exists k, line, m. replace (i + S k + 1) with (S i + k + 1) by lia. auto.
Qed.

Lemma StronglySorted_app {A : Type} (R : A -> A -> Prop) (l1 l2 : list A) :
  StronglySorted R l1 -> StronglySorted R l2 ->
  (forall a b, In a l1 -> In b l2 -> R a b) ->
  StronglySorted R (l1 ++ l2).
Proof.
  induction 1 as [|a l1 Hs IH Ha]; intros H2 Hx; simpl; [assumption|].
  constructor.
  - apply IH; [assumption|]. intros u v Hu Hv. apply Hx; [now right | assumption].
  - apply Forall_app. split; [assumption|].
    apply Forall_forall. intros v Hv. apply Hx; [now left | assumption].
Qed.

Lemma lint_loop_sorted filename : forall lines i,
  StronglySorted diag_lt (lint_loop filename i lines []).
Proof.
  induction lines as [|l lines IH]; intros i.
  - constructor.
  - rewrite lint_loop_cons. simpl. apply StronglySorted_app.
    + apply lint_line_sorted.
    + apply IH.
    + intros a b Ha Hb.
      apply lint_line_In in Ha as (m & -> & _).
      apply lint_loop_In in Hb as (k & line & m' & _ & -> & _).
      simpl. left. lia.
Qed.

Lemma filter_none {A : Type} (f : A -> bool) (l : list A) :
  (forall a, In a l -> f a = false) -> filter f l = [].
Proof.
  induction l as [|a l IH]; intros H; simpl; [reflexivity|].
  rewrite (H a (or_introl eq_refl)). apply IH. intros b Hb. apply H. now right.
Qed.

Lemma lint_loop_per_line filename n : forall lines i,
  length (filter (on_line n) (lint_loop filename i lines [])) <= 4.
Proof.
  induction lines as [|l lines IH]; intros i.
  - simpl. lia.
  - rewrite lint_loop_cons. simpl. rewrite filter_app, length_app.
    destruct (Nat.eq_dec n (i + 1)) as [->|Hne].
    + assert (H : filter (on_line (i + 1)) (lint_loop filename (S i) lines []) = []).
      { apply filter_none. intros d Hd.
        apply lint_loop_In in Hd as (k & line & m & _ & -> & _).
        unfold on_line. apply Nat.eqb_neq. lia. }
      rewrite H. simpl. rewrite Nat.add_0_r.
      etransitivity; [apply filter_length_le | apply lint_line_length].
    + assert (H : filter (on_line n) (lint_line filename (i + 1) l []) = []).
      { apply filter_none. intros d Hd.
        apply lint_line_In in Hd as (m & -> & _).
        unfold on_line. apply Nat.eqb_neq. lia. }
      rewrite H. simpl. apply IH.
Qed.

Lemma set_stdout_same (w : world) : set_stdout w (w_stdout w) = w.
Proof. now destruct w. Qed.

Lemma for_each_print (ls : list out_line) : forall w,
  for_each ls print w = (Returned tt, set_stdout w (w_stdout w ++ ls)).
Proof.
  induction ls as [|l ls IH]; intros w; simpl.
  - rewrite app_nil_r. unfold io_ret. now rewrite set_stdout_same.
  - unfold io_bind, print. rewrite IH. unfold set_stdout. simpl.
    now rewrite <- app_assoc.
Qed.

(** ** Reading a file *)

Ltac same_files_now :=
  unfold same_files; cbn; repeat (split; try reflexivity); intros; reflexivity.

Lemma same_files_refl (w : world) : same_files w w.
Proof. same_files_now. Qed.


Lemma file_text_inv (w : world) (path : string) (s : text) :
  file_text w path = Some s ->
  w_readable w path = true /\
  exists raw, w_data w (w_node w path) = Some raw /\ s = universal raw.
Proof.
  unfold file_text. destruct (w_readable w path); [|discriminate].
  destruct (w_data w (w_node w path)) as [raw|]; simpl; [|discriminate].
  intros [= <-]. split; [reflexivity|]. now exists raw.
Qed.



Lemma readlines_some (path : string) (w : world) (s : text) :
  file_text w path = Some s ->
  readlines path w =
  (Returned (split_lines [] s), set_ops w (w_ops w ++ [OpenRead path])).
Proof.
  intros H. apply file_text_inv in H as (Hr & raw & Hd & ->).
  unfold readlines. now rewrite Hr, Hd.
Qed.

Lemma readlines_none (path : string) (w : world) :
  file_text w path = None ->
  exists e w',
    readlines path w = (Raised e, w') /\ same_files w w' /\
    w_stdout w' = w_stdout w /\ w_data w' = w_data w.
Proof.
  unfold file_text, readlines. destruct (w_readable w path).
  - destruct (w_data w (w_node w path)); [discriminate|]. intros _.
    eexists. eexists. split; [reflexivity|]. split; [same_files_now|].
    split; reflexivity.
  - intros _. exists OSError, w. split; [reflexivity|].
    split; [apply same_files_refl|]. split; reflexivity.
Qed.

Lemma lint_c_code_some (filename : string) (w : world) (s : text) :
  file_text w filename = Some s ->
  lint_c_code filename w =
  (Returned tt,
   set_stdout (set_ops w (w_ops w ++ [OpenRead filename]))
     (w_stdout w ++ lint_lines filename (split_lines [] s))).
Proof.
  intros H. unfold lint_c_code, io_bind. rewrite (readlines_some _ _ _ H).
  now rewrite for_each_print.
Qed.

Lemma lint_c_code_none (filename : string) (w : world) :
  file_text w filename = None ->
  exists e w',
    lint_c_code filename w = (Raised e, w') /\ same_files w w' /\
    w_stdout w' = w_stdout w /\ w_data w' = w_data w.
Proof.
  intros H. destruct (readlines_none _ _ H) as (e & w' & Hr & Hs).
  exists e, w'. unfold lint_c_code, io_bind. now rewrite Hr.
Qed.

(** C7. The diagnostics of a file come out in ascending line order and,
    within one line, in the fixed order pointer-spacing, brace-new-line,
    opening-brace-alone, closing-brace-alone: the printed list is strictly
    increasing for (line number, rank of the check), so no check prints
    twice for a line.  Line numbers are 1-based positions; a diagnostic is
    printed exactly for each line and each check that fires on it; one
    line prints at most four; and [lint_c_code] appends exactly this list
    to the output when the file is read, and nothing when reading it
    raises. *)
Theorem lint_diagnostics_ordered (filename : string) (lines : list text) :
  StronglySorted diag_lt (lint_lines filename lines) /\
  (forall d, In d (lint_lines filename lines) <->
             exists k line message,
               nth_error lines k = Some line /\
               d = LintError filename (k + 1) message /\ rank message < 4 /\
               fires message line = true) /\
  (forall n, length (filter (on_line n) (lint_lines filename lines)) <= 4) /\
  (forall w, option_map (split_lines []) (file_text w filename) = Some lines ->
             fst (lint_c_code filename w) = Returned tt /\
             w_stdout (snd (lint_c_code filename w)) =
               w_stdout w ++ lint_lines filename lines) /\
  (forall w, file_text w filename = None ->
             (exists e, fst (lint_c_code filename w) = Raised e) /\
             w_stdout (snd (lint_c_code filename w)) = w_stdout w).
Proof.
  split; [apply lint_loop_sorted|]. split; [|split; [|split]].
  - intros d. apply lint_loop_In.
  - intros n. apply lint_loop_per_line.
  - intros w Hw. destruct (file_text w filename) as [s|] eqn:E; [|discriminate].
    simpl in Hw. injection Hw as <-.
    rewrite (lint_c_code_some _ _ _ E). split; reflexivity.
  - intros w Hw. destruct (lint_c_code_none _ _ Hw) as (e & w' & -> & _ & Hout & _).
    split; [now exists e | exact Hout].
Qed.

(** ** The command line driver *)








Lemma main_cases (argv : list string) (w : world) :
  main argv w =
  let target := target_of argv in
  let do_fix := String.eqb (lower (nth 2 argv ""%string)) "true" in
  if length argv <? 3 then (Exited 1, printed w (StatusLine MSG_USAGE []))
  else if is_file w target then
    if has_c_extension target then for_each [target] (process_file do_fix) w
    else (Exited 1, printed w (StatusLine MSG_NOT_C_FILE [target]))
  else if is_dir w target then
    match get_all_c_files target w with
    | (Returned files, w') => for_each files (process_file do_fix) w'
    | (Exited n, w') => (Exited n, w')
    | (Raised e, w') => (Raised e, w')
    end
  else (Exited 1, printed w (StatusLine MSG_FILE_NOT_FOUND [target])).
Proof.
  unfold main, target_of. cbv zeta.
  destruct (length argv <? 3); [reflexivity|].
  unfold io_bind at 1. unfold io_bind at 1. unfold isfile at 1.
  destruct (is_file w (nth 1 argv ""%string)).
  - destruct (has_c_extension (nth 1 argv ""%string)); reflexivity.
  - unfold io_bind at 1. unfold isdir at 1.
    destruct (is_dir w (nth 1 argv ""%string)); reflexivity.
Qed.

Lemma collect_files (root : string) (files : list string) : forall acc,
  fold_left
    (fun c_files f =>
       if has_c_extension f then c_files ++ [path_join root f] else c_files)
    files acc =
  acc ++ map (path_join root) (filter has_c_extension files).
Proof.
  induction files as [|f files IH]; intros acc; simpl.
  - now rewrite app_nil_r.
  - rewrite IH. destruct (has_c_extension f); [|reflexivity].
    simpl. now rewrite <- app_assoc.
Qed.

Lemma collect_walk (entries : list (string * list string * list string)) :
  forall acc,
    fold_left
      (fun c_files '(root, _, files) =>
         fold_left
           (fun c_files f =>
              if has_c_extension f then c_files ++ [path_join root f] else c_files)
           files c_files)
      entries acc =
    acc ++ walk_c_files entries.
Proof.
  induction entries as [|[[root dirs] files] entries IH]; intros acc; simpl.
  - now rewrite app_nil_r.
  - rewrite IH, collect_files. now rewrite <- app_assoc.
Qed.

Lemma get_all_c_files_walk (path : string) (w : world) :
  get_all_c_files path w = (Returned (walk_c_files (w_walk w path)), w).
Proof.
  unfold get_all_c_files, io_bind, os_walk, io_ret.
  now rewrite collect_walk.
Qed.




Lemma no_c_files_selected (entries : list (string * list string * list string)) :
  (forall root dirs files f,
      In (root, dirs, files) entries -> In f files -> has_c_extension f = false) ->
  forall acc,
    fold_left
      (fun c_files '(root, _, files) =>
         fold_left
           (fun c_files f =>
              if has_c_extension f then c_files ++ [path_join root f] else c_files)
           files c_files)
      entries acc = acc.
Proof.
  induction entries as [|[[root dirs] files] entries IH]; intros H acc; simpl;
    [reflexivity|].
  assert (Hin : forall f, In f files -> has_c_extension f = false).
  { intros f Hf. eapply H; [left; reflexivity | exact Hf]. }
  assert (Hfiles :
    fold_left (fun c_files f =>
                 if has_c_extension f then c_files ++ [path_join root f] else c_files)
              files acc = acc).
  { clear H IH. revert acc. induction files as [|f files IHf]; intros acc; simpl;
      [reflexivity|].
    rewrite (Hin f (or_introl eq_refl)). apply IHf.
    intros f' Hf'. apply Hin. now right. }
  rewrite Hfiles. apply IH.
  intros r d fs f Hr Hf. eapply H; [right; exact Hr | exact Hf].
Qed.

(** C10. When the target is a directory and no file that [os.walk] lists
    under it ends in [.c] or [.h], [main] returns normally (status 0) and
    leaves the world as it found it: nothing printed, no file opened for
    reading or writing, whatever the fix flag is. *)
Theorem main_empty_directory (argv : list string) (w : world) :
  3 <= length argv ->
  w_kind w (target_of argv) = Some Directory ->
  (forall root dirs files f,
      In (root, dirs, files) (w_walk w (target_of argv)) -> In f files ->
      has_c_extension f = false) ->
  main argv w = (Returned tt, w).
Proof.
  intros Hlen Hkind Hnone. rewrite main_cases. cbv zeta.
  destruct (length argv <? 3) eqn:E; [apply Nat.ltb_lt in E; lia|].
  unfold is_file, is_dir. rewrite Hkind.
  unfold get_all_c_files, io_bind, os_walk, io_ret.
  rewrite (no_c_files_selected _ Hnone). reflexivity.
Qed.

(** ** The Rewriter, line by line *)

Lemma indent_of_total (line : text) : re_match INDENT_PATTERN line <> None.
Proof.
  unfold re_match.
  replace line with (take_while is_space line ++ drop_while is_space line) at 1
    by apply take_drop_while.
  eapply match_at_complete. unfold INDENT_PATTERN.
  change (take_while is_space line) with ([] ++ take_while is_space line).
  apply M_Cat with (g1 := []); [apply M_Bol | apply M_Rep, take_while_all].
Qed.

Lemma indent_of_spec (line : text) : indent_of line = take_while is_space line.
Proof.
  unfold indent_of, re_match, match_at, INDENT_PATTERN. simpl.
  rewrite star_greedy_some with
    (r := (rev (take_while is_space line), drop_while is_space line,
           [(0, take_while is_space line)])).
  - reflexivity.
  - rewrite app_nil_r. unfold ret. do 3 f_equal.
    rewrite <- (take_drop_while is_space line) at 1 3.
    now rewrite firstn_consumed.
Qed.

Lemma brace_step_app (new_lines : list text) (line : text) :
  brace_step new_lines line = new_lines ++ fix_line line.
Proof.
  unfold fix_line, brace_step.
  destruct (text_eqb (strip line) (T "{") || text_eqb (strip line) (T "}"));
    [reflexivity|].
  destruct (re_match ELSE_BRACE_PATTERN line).
  - simpl. now repeat rewrite <- app_assoc.
  - destruct (re_search FUNCTION_BRACE_PATTERN line); [|reflexivity].
    destruct (strip (group 2 (m_groups r))); simpl;
      now repeat rewrite <- app_assoc.
Qed.

Lemma fix_brace_placement_flat (lines : list text) :
  fix_brace_placement lines = flat_map fix_line lines.
Proof.
  unfold fix_brace_placement.
  assert (H : forall acc, fold_left brace_step lines acc = acc ++ flat_map fix_line lines).
  { induction lines as [|l lines IH]; intros acc; simpl.
    - now rewrite app_nil_r.
    - rewrite IH, brace_step_app. now rewrite <- app_assoc. }
  apply H.
Qed.

(** *** Trimming *)

Lemma rstrip_app (x e : text) (d : ascii) :
  is_space d = false -> rstrip (x ++ d :: e) = x ++ rstrip (d :: e).
Proof.
  intros Hd. unfold rstrip. rewrite rev_app_distr.
  rewrite drop_while_keep.
  - now rewrite rev_app_distr, rev_involutive.
  - simpl. destruct (drop_while_snoc is_space (rev e) d Hd) as [t ->].
    now destruct t.
Qed.

Lemma rstrip_cons (d : ascii) (e : text) :
  is_space d = false -> exists t, rstrip (d :: e) = d :: t.
Proof.
  intros Hd. unfold rstrip. simpl.
  destruct (drop_while_snoc is_space (rev e) d Hd) as [t ->].
  rewrite rev_app_distr. simpl. now exists (rev t).
Qed.

(** A line with two characters that are not whitespace is not a lone
    brace. *)
Lemma strip_two (a b e : text) (c d : ascii) :
  is_space c = false -> is_space d = false ->
  2 <= length (strip (a ++ c :: b ++ d :: e)).
Proof.
  intros Hc Hd. unfold strip, lstrip.
  destruct (drop_while is_space a) as [|c' a'] eqn:E.
  - apply drop_while_nil_iff in E.
    rewrite drop_while_app; [|assumption|assumption].
    change (c :: b ++ d :: e) with ((c :: b) ++ d :: e).
    rewrite rstrip_app by assumption.
    destruct (rstrip_cons d e Hd) as [t ->].
    rewrite length_app. simpl. lia.
  - rewrite drop_while_keep by congruence. rewrite E.
    replace ((c' :: a') ++ c :: b ++ d :: e) with (((c' :: a') ++ c :: b) ++ d :: e)
      by now rewrite <- app_assoc.
    rewrite rstrip_app by assumption.
    destruct (rstrip_cons d e Hd) as [t ->].
    rewrite !length_app. simpl. lia.
Qed.

Lemma not_lone_brace (line : text) :
  2 <= length (strip line) ->
  text_eqb (strip line) (T "{") || text_eqb (strip line) (T "}") = false.
Proof.
  intros H. apply orb_false_iff. split.
  - destruct (text_eqb (strip line) (T "{")) eqn:E; [|reflexivity].
    apply text_eqb_eq in E. rewrite E in H. simpl in H. lia.
  - destruct (text_eqb (strip line) (T "}")) eqn:E; [|reflexivity].
    apply text_eqb_eq in E. rewrite E in H. simpl in H. lia.
Qed.

Lemma starts_with_cons (c : ascii) (p s : text) :
  starts_with (c :: p) s = true -> exists t, s = c :: t /\ starts_with p t = true.
Proof.
  destruct s as [|d s]; simpl; [discriminate|].
  intros H. apply andb_true_iff in H as [Hc Hp].
  apply Ascii.eqb_eq in Hc. subst d. eauto.
Qed.

(** *** The else shape *)

Lemma else_shape_inv (line : text) (m : rmatch) :
  re_match ELSE_BRACE_PATTERN line = Some m ->
  exists indent sp body sp' rest,
    line = indent ++ T "}" ++ sp ++ body ++ sp' ++ T "{" ++ rest /\
    forallb is_space indent = true /\ forallb is_space sp = true /\
    forallb is_space sp' = true /\
    starts_with (T "else") body = true /\ forallb (is_not "{") body = true /\
    group 1 (m_groups m) = indent /\ group 2 (m_groups m) = body.
Proof.
  unfold re_match. intros H.
  apply match_at_inv in H as (x & g & Hline & _ & Hg & M).
  unfold ELSE_BRACE_PATTERN in M. cbv [Str T list_ascii_of_string] in M.
  inv_match.
  - exists x0, x3, (T "else if" ++ x8), x5, (m_rest m). rewrite Hg.
    repeat split; try assumption; try reflexivity; norm_app; auto.
  - exists x0, x3, (T "else" ++ x8), x5, (m_rest m). rewrite Hg.
    repeat split; try assumption; try reflexivity; norm_app; auto.
Qed.

(** C5. A line of the else shape is never a lone brace, and the Rewriter
    turns it into exactly three lines that all start with the indentation
    captured by the match (group 1, the leading whitespace of the line): a
    closing brace alone, the text of group 2 (it starts with [else], holds
    no opening brace and stops before the brace of the match) trimmed, and
    an opening brace alone.  Inside a sequence the three lines take the
    place of the line. *)
Theorem else_shape_three_lines (line : text) :
  found (re_match ELSE_BRACE_PATTERN line) = true ->
  exists m indent sp body sp' rest,
    re_match ELSE_BRACE_PATTERN line = Some m /\
    group 1 (m_groups m) = indent /\ group 2 (m_groups m) = body /\
    line = indent ++ T "}" ++ sp ++ body ++ sp' ++ T "{" ++ rest /\
    indent = indent_of line /\
    forallb is_space sp = true /\ forallb is_space sp' = true /\
    starts_with (T "else") body = true /\ forallb (is_not "{") body = true /\
    fix_line line =
      [indent ++ T "}" ++ [LF]; indent ++ strip body ++ [LF]; indent ++ T "{" ++ [LF]] /\
    forall before after,
      fix_brace_placement (before ++ line :: after) =
      fix_brace_placement before
        ++ [indent ++ T "}" ++ [LF]; indent ++ strip body ++ [LF];
            indent ++ T "{" ++ [LF]]
        ++ fix_brace_placement after.
Proof.
  intros Hf. destruct (re_match ELSE_BRACE_PATTERN line) as [m|] eqn:Hm; [|discriminate].
  destruct (else_shape_inv _ _ Hm)
    as (indent & sp & body & sp' & rest & Hline & Hi & Hsp & Hsp' & Hb & Hnb & H1 & H2).
  assert (Hfix : fix_line line =
    [indent ++ T "}" ++ [LF]; indent ++ strip body ++ [LF]; indent ++ T "{" ++ [LF]]).
  { unfold fix_line, brace_step. rewrite not_lone_brace.
    - rewrite Hm, H1, H2. reflexivity.
    - rewrite Hline. destruct (starts_with_cons _ _ _ Hb) as (body' & -> & _).
      change (indent ++ T "}" ++ sp ++ ("e"%char :: body') ++ sp' ++ T "{" ++ rest)
        with (indent ++ "}"%char :: sp ++ "e"%char :: (body' ++ sp' ++ T "{" ++ rest)).
      apply strip_two; reflexivity. }
  exists m, indent, sp, body, sp', rest.
  repeat split; try assumption.
  - rewrite indent_of_spec, Hline. symmetry.
    apply take_while_app; [assumption | reflexivity].
  - intros before after. rewrite !fix_brace_placement_flat, flat_map_app. simpl.
    now rewrite Hfix.
Qed.

(** *** The general header shape *)

(** What follows group 1 in [FUNCTION_BRACE_PATTERN]: optional whitespace,
    the brace, optional whitespace, and group 2.  Both whitespace runs and
    group 2 are maximal: the brace rules out a shorter first run, and
    nothing after the last two runs can fail. *)
Lemma header_tail_some (k : cont) (b z z2 : text) (g : caps) :
  (forall b' a' g', k b' a' g' <> None) ->
  drop_while is_space z = "{"%char :: z2 ->
  exists b',
    run (Rep is_space ;; Chr "{" ;; Rep is_space ;; Grp 2 (Rep is_dot))%re k b z g =
    k b' (drop_while is_dot (drop_while is_space z2))
      ((2, take_while is_dot (drop_while is_space z2)) :: g).
Proof.
  intros Hk Hz. cbn [run].
  rewrite star_greedy_only.
  2:{ intros b0 c t Hc. now rewrite (space_not_lbrace c Hc). }
  rewrite Hz. rewrite Ascii.eqb_refl.
  set (z3 := drop_while is_space z2).
  eexists.
  destruct (k (rev (take_while is_dot z3) ++
               rev (take_while is_space z2) ++
               "{"%char :: rev (take_while is_space z) ++ b)
              (drop_while is_dot z3)
              ((2, take_while is_dot z3) :: g)) as [r|] eqn:Hr;
    [|now apply Hk in Hr].
  rewrite Hr. apply star_greedy_some. apply star_greedy_some. fold z3.
  rewrite <- (take_drop_while is_dot z3) at 3 5.
  rewrite firstn_consumed. exact Hr.
Qed.

Lemma header_tail_none (k : cont) (b z : text) (g : caps) :
  (forall z2, drop_while is_space z <> "{"%char :: z2) ->
  run (Rep is_space ;; Chr "{" ;; Rep is_space ;; Grp 2 (Rep is_dot))%re k b z g = None.
Proof.
  intros Hz. cbn [run].
  rewrite star_greedy_only.
  2:{ intros b0 c t Hc. now rewrite (space_not_lbrace c Hc). }
  destruct (drop_while is_space z) as [|c z2] eqn:E; [reflexivity|].
  destruct (Ascii.eqb c "{") eqn:Ec; [|reflexivity].
  apply Ascii.eqb_eq in Ec. subst c. now destruct (Hz z2).
Qed.

Lemma function_at_unfold (bef aft : text) :
  match_at FUNCTION_BRACE_PATTERN bef aft =
  match
    star is_dot
      (run (Chr ")")
         (fun b' a' g' =>
            run (Rep is_space ;; Chr "{" ;; Rep is_space ;; Grp 2 (Rep is_dot))%re
              (fun b'' a'' g'' =>
                 ret b'' a'' ((0, firstn (length aft - length a'') aft) :: g''))
              b' a' ((1, firstn (length aft - length a') aft) :: g')))
      bef aft []
  with
  | Some (_, a, g) => Some (mk_rmatch bef a g)
  | None => None
  end.
Proof. reflexivity. Qed.

Lemma header_here_spec (z : text) :
  header_here z = true <->
  exists z1 z2, z = ")"%char :: z1 /\ drop_while is_space z1 = "{"%char :: z2.
Proof.
  unfold header_here. split.
  - destruct z as [|c z1]; [discriminate|]. intros H.
    apply andb_true_iff in H as [Hc Hd]. apply Ascii.eqb_eq in Hc. subst c.
    destruct (drop_while is_space z1) as [|d z2] eqn:E; [discriminate|].
    apply Ascii.eqb_eq in Hd. subst d. eauto.
  - intros (z1 & z2 & -> & ->). now rewrite !Ascii.eqb_refl.
Qed.

(** The continuation of the first run at a position: it goes through
    exactly where a header starts. *)
Lemma header_cont_some (aft b y z1 z2 : text) (g : caps) :
  aft = y ++ ")"%char :: z1 ->
  drop_while is_space z1 = "{"%char :: z2 ->
  exists b',
    run (Chr ")")
      (fun b' a' g' =>
         run (Rep is_space ;; Chr "{" ;; Rep is_space ;; Grp 2 (Rep is_dot))%re
           (fun b'' a'' g'' =>
              ret b'' a'' ((0, firstn (length aft - length a'') aft) :: g''))
           b' a' ((1, firstn (length aft - length a') aft) :: g'))
      b (")"%char :: z1) g =
    Some (b', m_rest (header_match [] y z1 z2),
          (0, group 0 (m_groups (header_match [] y z1 z2)))
            :: (2, group 2 (m_groups (header_match [] y z1 z2)))
            :: (1, y ++ [")"%char]) :: g).
Proof.
  intros Haft Hz. cbn [run]. rewrite Ascii.eqb_refl.
  destruct (header_tail_some
              (fun b'' a'' g'' =>
                 ret b'' a'' ((0, firstn (length aft - length a'') aft) :: g''))
              (")"%char :: b) z1 z2
              ((1, firstn (length aft - length z1) aft) :: g))
    as [b' Hb']; [discriminate | assumption |].
  exists b'. cbn [run] in Hb'. rewrite Hb'. unfold ret, header_match. simpl.
  subst aft. do 4 f_equal.
  replace (y ++ ")"%char :: z1) with ((y ++ [")"%char]) ++ z1)
    by now rewrite <- app_assoc.
  now rewrite firstn_consumed.
Qed.

Lemma header_cont_none (aft b z : text) (g : caps) :
  header_here z = false ->
  run (Chr ")")
    (fun b' a' g' =>
       run (Rep is_space ;; Chr "{" ;; Rep is_space ;; Grp 2 (Rep is_dot))%re
         (fun b'' a'' g'' =>
            ret b'' a'' ((0, firstn (length aft - length a'') aft) :: g''))
         b' a' ((1, firstn (length aft - length a') aft) :: g'))
    b z g = None.
Proof.
  intros H. cbn [run].
  destruct z as [|c z1]; [reflexivity|].
  destruct (Ascii.eqb c ")") eqn:Ec; [|reflexivity].
  change (star is_space ?k ?b ?a ?g0) with (run (Rep is_space) k b a g0).
  apply (header_tail_none
           (fun b'' a'' g'' =>
              ret b'' a'' ((0, firstn (length aft - length a'') aft) :: g''))).
  intros z2 Hz. unfold header_here in H. rewrite Ec, Hz in H. discriminate.
Qed.

(** Every match of the header pattern is a [header_match]. *)
Lemma function_at_inv (bef aft : text) (m : rmatch) :
  match_at FUNCTION_BRACE_PATTERN bef aft = Some m ->
  exists y z1 z2,
    aft = y ++ ")"%char :: z1 /\ forallb is_dot y = true /\
    drop_while is_space z1 = "{"%char :: z2 /\
    m = header_match bef y z1 z2.
Proof.
  rewrite function_at_unfold. intros H.
  match type of H with
  | match ?s with _ => _ end = _ => destruct s as [[[b a] g]|] eqn:E; [|discriminate]
  end.
  inversion H; subst m; clear H.
  apply star_inv in E as (y & z & Haft & Hy & Hk).
  destruct (header_here z) eqn:Hh.
  - apply header_here_spec in Hh as (z1 & z2 & -> & Hz).
    destruct (header_cont_some aft (rev y ++ bef) y z1 z2 [] Haft Hz) as [b' Hb'].
    rewrite Hb' in Hk. inversion Hk; subst b a g.
    exists y, z1, z2. repeat split; try assumption.
  - rewrite header_cont_none in Hk by assumption. discriminate.
Qed.

(** The last header of the first run is the one that is matched. *)
Lemma function_at_last (bef y z1 z2 : text) :
  forallb is_dot y = true ->
  drop_while is_space z1 = "{"%char :: z2 ->
  (forall u z', u <> [] -> ")"%char :: z1 = u ++ z' -> forallb is_dot u = true ->
                header_here z' = false) ->
  match_at FUNCTION_BRACE_PATTERN bef (y ++ ")"%char :: z1) =
  Some (header_match bef y z1 z2).
Proof.
  intros Hy Hz Hlast. rewrite function_at_unfold.
  destruct (header_cont_some _ (rev y ++ bef) y z1 z2 [] eq_refl Hz) as [b' Hb'].
  rewrite (star_last _ _ _ _ _ _ _ Hy Hb').
  - reflexivity.
  - intros u z' Hu Hz' Hpu. apply header_cont_none. eapply Hlast; eassumption.
Qed.

Lemma strip_nil_iff (s : text) : strip s = [] <-> forallb is_space s = true.
Proof.
  unfold strip, rstrip, lstrip. split.
  - intros H. apply drop_while_nil_iff.
    destruct (drop_while is_space s) as [|c t] eqn:E; [reflexivity|].
    pose proof (drop_while_head _ _ _ _ E) as Hc.
    destruct (rstrip_cons c t Hc) as [t' Ht]. unfold rstrip in Ht.
    rewrite Ht in H. discriminate.
  - intros H. now rewrite (drop_while_all _ _ H).
Qed.

Lemma forallb_rev_true (p : ascii -> bool) (s : text) :
  forallb p s = true -> forallb p (rev s) = true.
Proof.
  intros H. apply forallb_forall. intros c Hc. apply in_rev in Hc.
  revert c Hc. now apply forallb_forall.
Qed.

Lemma lstrip_pad (a s : text) : forallb is_space a = true -> lstrip (a ++ s) = lstrip s.
Proof.
  unfold lstrip. induction a as [|c a IH]; simpl; [reflexivity|].
  intros H. apply andb_true_iff in H as [Hc Ha]. rewrite Hc. auto.
Qed.

Lemma rstrip_pad (s b : text) : forallb is_space b = true -> rstrip (s ++ b) = rstrip s.
Proof.
  intros H. unfold rstrip. rewrite rev_app_distr. f_equal.
  apply (lstrip_pad (rev b) (rev s)). now apply forallb_rev_true.
Qed.

(** Whitespace around a text does not change what trimming leaves. *)
Lemma strip_pad (a s b : text) :
  forallb is_space a = true -> forallb is_space b = true ->
  strip (a ++ s ++ b) = strip s.
Proof.
  intros Ha Hb. unfold strip. rewrite lstrip_pad by assumption.
  destruct (lstrip s) as [|c t] eqn:E.
  - unfold lstrip in *. apply drop_while_nil_iff in E.
    rewrite (drop_while_all is_space (s ++ b)); [reflexivity|].
    rewrite forallb_app. now rewrite E, Hb.
  - unfold lstrip in *. rewrite drop_while_keep by congruence.
    rewrite E. now apply rstrip_pad.
Qed.

(** Group 2 starts after the whitespace that follows the brace, so it is
    blank exactly when everything after the brace is. *)
Lemma suffix_blank (z2 : text) :
  forallb is_space (take_while is_dot (drop_while is_space z2)) =
  forallb is_space z2.
Proof.
  destruct (drop_while is_space z2) as [|c t] eqn:E.
  - simpl. symmetry. now apply drop_while_nil_iff.
  - pose proof (drop_while_head _ _ _ _ E) as Hc.
    assert (Hd : is_dot c = true).
    { unfold is_dot. destruct (Ascii.eqb c LF) eqn:El; [|reflexivity].
      apply Ascii.eqb_eq in El. subst c. discriminate. }
    simpl. rewrite Hd. simpl. rewrite Hc. simpl. symmetry.
    destruct (forallb is_space z2) eqn:F; [|reflexivity].
    apply drop_while_nil_iff in F. congruence.
Qed.

Lemma function_at_exists (bef y z1 z2 : text) :
  forallb is_dot y = true ->
  drop_while is_space z1 = "{"%char :: z2 ->
  match_at FUNCTION_BRACE_PATTERN bef (y ++ ")"%char :: z1) <> None.
Proof.
  intros Hy Hz. rewrite function_at_unfold.
  destruct (header_cont_some _ (rev y ++ bef) y z1 z2 [] eq_refl Hz) as [b' Hb'].
  match goal with
  | |- match ?s with _ => _ end <> None =>
      assert (Hs : s <> None) by (apply star_complete; [assumption | congruence]);
      destruct s as [[[b a] g]|]; [discriminate | contradiction]
  end.
Qed.

(** What the Rewriter makes of a header line, given the match. *)
Lemma fix_line_header (line : text) (bef y z1 z2 : text) :
  text_eqb (strip line) (T "{") || text_eqb (strip line) (T "}") = false ->
  re_match ELSE_BRACE_PATTERN line = None ->
  re_search FUNCTION_BRACE_PATTERN line = Some (header_match bef y z1 z2) ->
  fix_line line =
  [(y ++ T ")") ++ [LF]; indent_of line ++ T "{" ++ [LF]]
    ++ (if forallb is_space z2 then []
        else [indent_of line
                ++ strip (take_while is_dot (drop_while is_space z2)) ++ [LF]]).
Proof.
  intros Hlone Helse Hs. unfold fix_line, brace_step.
  rewrite Hlone, Helse, Hs. cbn [header_match m_groups group Nat.eqb].
  rewrite <- suffix_blank.
  destruct (strip (take_while is_dot (drop_while is_space z2))) as [|c t] eqn:E.
  - apply strip_nil_iff in E. rewrite E. reflexivity.
  - destruct (forallb is_space (take_while is_dot (drop_while is_space z2))) eqn:F.
    + apply strip_nil_iff in F. congruence.
    + reflexivity.
Qed.

(** C6. A line that is neither a lone brace nor of the else shape, and in
    which the header pattern is found, reads [before ++ prefix ++ ws ++ "{"
    ++ trailing]: [prefix] (group 1) ends with a closing parenthesis and
    holds no newline, [ws] is whitespace, and [before] is empty unless it
    holds a newline.  The Rewriter emits [prefix] as a line, then a line
    with only the brace behind the leading whitespace of the input line,
    and a third line, with the same indentation and the trimmed group 2, if
    and only if [trailing] is not blank: two lines when it is blank, three
    otherwise.  Group 2 trimmed is [trailing] trimmed when nothing but
    whitespace follows the end of the line of the match. *)
Theorem header_shape_lines (line : text) :
  text_eqb (strip line) (T "{") || text_eqb (strip line) (T "}") = false ->
  found (re_match ELSE_BRACE_PATTERN line) = false ->
  found (re_search FUNCTION_BRACE_PATTERN line) = true ->
  exists m before y ws trailing,
    re_search FUNCTION_BRACE_PATTERN line = Some m /\
    line = before ++ (y ++ T ")") ++ ws ++ T "{" ++ trailing /\
    group 1 (m_groups m) = y ++ T ")" /\
    forallb is_dot y = true /\ forallb is_space ws = true /\
    (forallb is_dot before = true -> before = []) /\
    indent_of line = take_while is_space line /\
    fix_line line =
      [(y ++ T ")") ++ [LF]; indent_of line ++ T "{" ++ [LF]]
        ++ (if forallb is_space trailing then []
            else [indent_of line ++ strip (group 2 (m_groups m)) ++ [LF]]) /\
    length (fix_line line) = (if forallb is_space trailing then 2 else 3) /\
    (forallb is_space (m_rest m) = true ->
     strip (group 2 (m_groups m)) = strip trailing) /\
    forall l1 l2,
      fix_brace_placement (l1 ++ line :: l2) =
      fix_brace_placement l1 ++ fix_line line ++ fix_brace_placement l2.
Proof.
  intros Hlone Helse Hf.
  destruct (re_match ELSE_BRACE_PATTERN line) as [?|] eqn:He; [discriminate|].
  destruct (re_search FUNCTION_BRACE_PATTERN line) as [m|] eqn:Hs; [|discriminate].
  pose proof Hs as Hs'. unfold re_search in Hs'.
  apply search_inv in Hs' as (a & b & Hline & Hm & Hmin).
  apply function_at_inv in Hm as (y & z1 & z2 & Hb & Hy & Hz & Hmm).
  rewrite app_nil_r in Hmm. subst m b.
  assert (Hz1 : z1 = take_while is_space z1 ++ T "{" ++ z2).
  { rewrite <- (take_drop_while is_space z1) at 1. now rewrite Hz. }
  pose proof (fix_line_header line _ _ _ _ Hlone He Hs) as Hfix.
  exists (header_match (rev a) y z1 z2), a, y, (take_while is_space z1), z2.
  split; [reflexivity|]. split.
  { rewrite Hline. rewrite <- Hz1. now rewrite <- app_assoc. }
  split; [reflexivity|]. split; [assumption|].
  split; [apply take_while_all|]. split.
  { intros Ha. destruct a as [|c a]; [reflexivity|]. exfalso.
    specialize (Hmin [] (c :: a) eq_refl ltac:(discriminate)).
    simpl in Hmin.
    apply (function_at_exists [] ((c :: a) ++ y) z1 z2).
    - rewrite forallb_app. now rewrite Ha, Hy.
    - assumption.
    - rewrite <- app_assoc. exact Hmin. }
  split; [apply indent_of_spec|]. split; [exact Hfix|]. split.
  { rewrite Hfix. destruct (forallb is_space z2); reflexivity. }
  split.
  { cbn [header_match m_rest m_groups group Nat.eqb]. intros Hrest.
    rewrite <- (take_drop_while is_space z2) at 2.
    rewrite <- (take_drop_while is_dot (drop_while is_space z2)) at 2.
    symmetry. apply strip_pad; [apply take_while_all | assumption]. }
  intros l1 l2. rewrite !fix_brace_placement_flat, flat_map_app. reflexivity.
Qed.

(** *** Several headers on one line *)

Lemma header_here_found (a z : text) :
  header_here z = true ->
  found (re_search BRACE_ON_SAME_LINE_PATTERN (a ++ z)) = true.
Proof.
  intros H. apply header_here_spec in H as (z1 & z2 & -> & Hz).
  apply found_search.
  exists a, (")"%char :: z1), (")"%char :: take_while is_space z1 ++ ["{"%char]), z2, [].
  repeat split.
  - rewrite <- (take_drop_while is_space z1) at 1. rewrite Hz.
    simpl. now rewrite <- app_assoc.
  - unfold BRACE_ON_SAME_LINE_PATTERN.
    change (")"%char :: take_while is_space z1 ++ ["{"%char])
      with ([")"%char] ++ take_while is_space z1 ++ ["{"%char]).
    apply M_Cat with (g1 := []); [apply M_Chr|].
    apply M_Cat with (g1 := []); [apply M_Rep, take_while_all | apply M_Chr].
Qed.

(** A header that starts after the brace of [ws ++ "{" :: post] starts in
    [post]. *)
Lemma later_header_in_post (ws post : text) : forall u z,
  forallb is_space ws = true ->
  u ++ z = ws ++ "{"%char :: post ->
  header_here z = true ->
  exists a, post = a ++ z.
Proof.
  induction ws as [|w ws IH]; intros u z Hws Hsplit Hz.
  - destruct u as [|c u]; simpl in Hsplit.
    + subst z. discriminate.
    + inversion Hsplit; subst. now exists u.
  - simpl in Hws. apply andb_true_iff in Hws as [Hw Hws].
    destruct u as [|c u]; simpl in Hsplit.
    + subst z. simpl in Hz. rewrite (space_not_rparen w Hw) in Hz. discriminate.
    + inversion Hsplit; subst. eapply IH; eassumption.
Qed.

(** C9. In a line [pre ++ ")" ++ ws ++ "{" ++ post] whose text before this
    parenthesis holds no newline, [ws] being whitespace and no closing
    parenthesis followed by optional whitespace and a brace occurring in
    [post] (this brace is the last one that follows a parenthesis), the
    general-header rule splits at this brace: in the sequence that
    [fix_brace_placement] returns, the line is replaced by everything up to
    the parenthesis, as it is, whatever braces it holds, then this brace
    alone on a line, then the trimmed text behind it if there is any; only
    this brace moves to a line of its own. *)
Theorem last_header_brace_split (pre ws post : text) :
  forallb is_dot pre = true ->
  forallb is_space ws = true ->
  found (re_search BRACE_ON_SAME_LINE_PATTERN post) = false ->
  found (re_match ELSE_BRACE_PATTERN (pre ++ T ")" ++ ws ++ T "{" ++ post)) = false ->
  let line := pre ++ T ")" ++ ws ++ T "{" ++ post in
  let split :=
    [(pre ++ T ")") ++ [LF]; indent_of line ++ T "{" ++ [LF]]
      ++ (if forallb is_space post then []
          else [indent_of line
                  ++ strip (take_while is_dot (drop_while is_space post)) ++ [LF]]) in
  group 1 (match re_search FUNCTION_BRACE_PATTERN line with
           | Some m => m_groups m
           | None => []
           end) = pre ++ T ")" /\
  fix_line line = split /\
  fix_brace_placement [line] = split /\
  forall l1 l2,
    fix_brace_placement (l1 ++ line :: l2) =
    fix_brace_placement l1 ++ split ++ fix_brace_placement l2.
Proof.
  intros Hpre Hws Hlast Helse line split.
  assert (Hdrop : drop_while is_space (ws ++ "{"%char :: post) = "{"%char :: post).
  { apply drop_while_app; [assumption | reflexivity]. }
  assert (Hm : re_search FUNCTION_BRACE_PATTERN line =
               Some (header_match [] pre (ws ++ "{"%char :: post) post)).
  { unfold re_search. apply search_here.
    apply (function_at_last [] pre (ws ++ "{"%char :: post) post Hpre Hdrop).
    intros u z' Hu Hsplit _. destruct (header_here z') eqn:Hh; [|reflexivity].
    destruct u as [|c u]; [congruence|]. simpl in Hsplit. inversion Hsplit; subst.
    destruct (later_header_in_post ws post u z' Hws (eq_sym H1) Hh) as [a ->].
    rewrite (header_here_found a z' Hh) in Hlast. discriminate. }
  assert (Hfix : fix_line line = split).
  { apply fix_line_header with (bef := []) (z1 := ws ++ "{"%char :: post).
    - apply not_lone_brace. unfold line.
      change (pre ++ T ")" ++ ws ++ T "{" ++ post)
        with (pre ++ ")"%char :: ws ++ "{"%char :: post).
      apply strip_two; reflexivity.
    - fold line in Helse. now destruct (re_match ELSE_BRACE_PATTERN line).
    - exact Hm. }
  split; [now rewrite Hm|]. split; [exact Hfix|]. split.
  - rewrite fix_brace_placement_flat. cbn [flat_map]. rewrite app_nil_r.
    exact Hfix.
  - intros l1 l2. rewrite !fix_brace_placement_flat, flat_map_app.
    change (flat_map fix_line (line :: l2))
      with (fix_line line ++ flat_map fix_line l2).
    now rewrite Hfix.
Qed.

(** ** Examples *)

Example normalizer_on_declaration :
  fix_pointer_spacing (T "int*  x") = T "int *x".
Proof. reflexivity. Qed.

Example header_without_trailing_text :
  fix_brace_placement [T "int main(void) {" ++ [LF]] =
    [T "int main(void)" ++ [LF]; T "{" ++ [LF]].
Proof. reflexivity. Qed.

Example lone_braces_pass_through :
  fix_brace_placement [T "{" ++ [LF]; T "   }  " ++ [LF]] =
    [T "{" ++ [LF]; T "   }  " ++ [LF]].
Proof. reflexivity. Qed.

(** One line on which the four checks fire. *)
Example four_diagnostics_on_one_line :
  lint_lines "a.c" [T "int* f() { x } y" ++ [LF]] =
    [LintError "a.c" 1 MSG_POINTER_SPACING; LintError "a.c" 1 MSG_BRACE_NEW_LINE;
     LintError "a.c" 1 MSG_OPENING_BRACE_ALONE; LintError "a.c" 1 MSG_CLOSING_BRACE_ALONE].
Proof. reflexivity. Qed.

Example discovery_selects_c_sources :
  fst (get_all_c_files "src" sample_sources) = Returned ["src/a.c"%string].
Proof. reflexivity. Qed.

Example lint_only_run :
  exit_status (fst (main ["c_linter.py"; "src"; "false"]%string sample_sources)) = 0 /\
  w_stdout (snd (main ["c_linter.py"; "src"; "false"]%string sample_sources)) =
    [LintError "src/a.c" 1 MSG_POINTER_SPACING; LintError "src/a.c" 1 MSG_BRACE_NEW_LINE;
     LintError "src/a.c" 1 MSG_OPENING_BRACE_ALONE;
     LintError "src/a.c" 1 MSG_CLOSING_BRACE_ALONE] /\
  w_ops (snd (main ["c_linter.py"; "src"; "false"]%string sample_sources)) =
    [OpenRead "src/a.c"].
Proof. repeat split; reflexivity. Qed.

Example fix_run :
  exit_status (fst (main ["c_linter.py"; "src/a.c"; "TRUE"]%string sample_sources)) = 0 /\
  file_text (snd (main ["c_linter.py"; "src/a.c"; "TRUE"]%string sample_sources)) "src/a.c" =
    Some (T "int *f()" ++ [LF] ++ T "{" ++ [LF] ++ T "x } y" ++ [LF]) /\
  w_ops (snd (main ["c_linter.py"; "src/a.c"; "TRUE"]%string sample_sources)) =
    [OpenRead "src/a.c"; OpenWrite "src/a.c"; OpenRead "src/a.c"].
Proof. repeat split; reflexivity. Qed.

Example missing_target :
  exit_status (fst (main ["c_linter.py"; "nowhere"; "true"]%string sample_sources)) = 1 /\
  w_stdout (snd (main ["c_linter.py"; "nowhere"; "true"]%string sample_sources)) =
    [StatusLine MSG_FILE_NOT_FOUND ["nowhere"%string]].
Proof. split; reflexivity. Qed.

Example too_few_arguments :
  exit_status (fst (main ["c_linter.py"; "src"]%string sample_sources)) = 1 /\
  w_stdout (snd (main ["c_linter.py"; "src"]%string sample_sources)) =
    [StatusLine MSG_USAGE []].
Proof. split; reflexivity. Qed.

Lemma else_shape_three_lines_witness :
  found (re_match ELSE_BRACE_PATTERN (T "    } else if (x > 0) {" ++ [LF])) = true /\
  fix_line (T "    } else if (x > 0) {" ++ [LF]) =
    [T "    }" ++ [LF]; T "    else if (x > 0)" ++ [LF]; T "    {" ++ [LF]].
Proof.
  split; [reflexivity|].
  destruct (else_shape_three_lines (T "    } else if (x > 0) {" ++ [LF]) eq_refl)
    as (m & indent & sp & body & sp' & rest & Hm & H1 & H2 & _ & _ & _ & _ & _ & _ & Hfix & _).
  apply (f_equal (fun o => match o with Some x => x | None => mk_rmatch [] [] [] end)) in Hm.
  subst indent body m. exact Hfix.
Defined.

Lemma header_shape_lines_witness :
  text_eqb (strip (T "  if (x) { return 1;" ++ [LF])) (T "{")
    || text_eqb (strip (T "  if (x) { return 1;" ++ [LF])) (T "}") = false /\
  found (re_match ELSE_BRACE_PATTERN (T "  if (x) { return 1;" ++ [LF])) = false /\
  found (re_search FUNCTION_BRACE_PATTERN (T "  if (x) { return 1;" ++ [LF])) = true /\
  length (fix_line (T "  if (x) { return 1;" ++ [LF])) = 3 /\
  fix_line (T "  if (x) { return 1;" ++ [LF]) =
    [T "  if (x)" ++ [LF]; T "  {" ++ [LF]; T "  return 1;" ++ [LF]].
Proof.
  split; [reflexivity|]. split; [reflexivity|]. split; [reflexivity|].
  destruct (header_shape_lines (T "  if (x) { return 1;" ++ [LF]) eq_refl eq_refl eq_refl)
    as (m & before & y & ws & trailing & Hs & _ & Hg & _ & _ & _ & _ & Hfix & Hlen & _).
  apply (f_equal (fun o => match o with Some x => x | None => mk_rmatch [] [] [] end)) in Hs.
  subst m. rewrite <- Hg in Hfix.
  destruct (forallb is_space trailing); [discriminate Hlen|].
  split; [exact Hlen | exact Hfix].
Defined.

Lemma last_header_brace_split_witness :
  forallb is_dot (T "if (a) { if (b") = true /\
  forallb is_space (T " ") = true /\
  found (re_search BRACE_ON_SAME_LINE_PATTERN [LF]) = false /\
  found (re_match ELSE_BRACE_PATTERN (T "if (a) { if (b) {" ++ [LF])) = false /\
  fix_brace_placement
    [T "int x;" ++ [LF]; T "if (a) { if (b) {" ++ [LF]; T "}" ++ [LF]] =
    [T "int x;" ++ [LF]; T "if (a) { if (b)" ++ [LF]; T "{" ++ [LF]; T "}" ++ [LF]] /\
  found (re_search OPENING_BRACE_NOT_ALONE_PATTERN (T "if (a) { if (b)" ++ [LF])) = true.
Proof.
  split; [reflexivity|]. split; [reflexivity|]. split; [reflexivity|].
  split; [reflexivity|]. split; [|reflexivity].
  destruct (last_header_brace_split (T "if (a) { if (b") (T " ") [LF]
              eq_refl eq_refl eq_refl eq_refl) as (_ & _ & _ & Hctx).
  exact (Hctx [T "int x;" ++ [LF]] [T "}" ++ [LF]]).
Defined.

Lemma main_empty_directory_witness :
  3 <= length ["c_linter.py"%string; "proj"%string; "true"%string] /\
  w_kind sample_world (target_of ["c_linter.py"%string; "proj"%string; "true"%string])
    = Some Directory /\
  main ["c_linter.py"%string; "proj"%string; "true"%string] sample_world
    = (Returned tt, sample_world).
Proof.
  split; [simpl; lia|]. split; [reflexivity|].
  apply main_empty_directory; [simpl; lia | reflexivity |].
  intros root dirs files f Hin Hf. simpl in Hin.
  destruct Hin as [Hin|[Hin|[]]]; inversion Hin; subst; simpl in Hf.
  - destruct Hf as [<-|[<-|[]]]; reflexivity.
  - destruct Hf as [<-|[]]; reflexivity.
Defined.

(** ** What the Rewriter does to the text *)

Lemma fix_line_length (line : text) :
  1 <= length (fix_line line) <= 3.
Proof.
  unfold fix_line, brace_step.
  destruct (text_eqb (strip line) (T "{") || text_eqb (strip line) (T "}"));
    [simpl; lia|].
  destruct (re_match ELSE_BRACE_PATTERN line); [simpl; lia|].
  destruct (re_search FUNCTION_BRACE_PATTERN line); [|simpl; lia].
  destruct (strip (group 2 (m_groups r))); simpl; lia.
Qed.

Lemma fix_brace_placement_length (lines : list text) :
  length lines <= length (fix_brace_placement lines) <= 3 * length lines.
Proof.
  rewrite fix_brace_placement_flat.
  induction lines as [|l lines IH]; simpl; [lia|].
  rewrite length_app. pose proof (fix_line_length l). lia.
Qed.

(** *** What the Rewriter keeps of a line *)

Lemma content_app (a b : text) : content (a ++ b) = content a ++ content b.
Proof. apply filter_app. Qed.

Lemma content_blank (a : text) : forallb is_space a = true -> content a = [].
Proof.
  intros H. apply filter_none. intros c Hc. unfold not_space.
  now rewrite (proj1 (forallb_forall _ _) H c Hc).
Qed.

Lemma strip_parts (s : text) :
  exists a b,
    s = a ++ strip s ++ b /\ forallb is_space a = true /\ forallb is_space b = true.
Proof.
  exists (take_while is_space s), (rev (take_while is_space (rev (lstrip s)))).
  repeat split.
  - unfold strip, rstrip.
    rewrite <- rev_app_distr, take_drop_while, rev_involutive.
    unfold lstrip. now rewrite take_drop_while.
  - apply take_while_all.
  - apply forallb_rev_true, take_while_all.
Qed.

Lemma content_strip (s : text) : content (strip s) = content s.
Proof.
  destruct (strip_parts s) as (a & b & Hs & Ha & Hb).
  rewrite Hs at 2. rewrite !content_app.
  now rewrite (content_blank a Ha), (content_blank b Hb), app_nil_r.
Qed.

Lemma single_line_no_newline (a b : text) :
  single_line (a ++ b) -> b <> [] -> forallb is_dot a = true.
Proof.
  intros Hl Hb. apply forallb_forall. intros c Hc. unfold is_dot.
  destruct (Ascii.eqb c LF) eqn:E; [|reflexivity].
  apply Ascii.eqb_eq in E. subst c.
  apply in_split in Hc as (a1 & a2 & ->).
  specialize (Hl a1 (a2 ++ b)). rewrite <- app_assoc in Hl.
  destruct a2; destruct b; simpl in Hl; try congruence;
    now specialize (Hl eq_refl).
Qed.

Lemma single_line_tail (a t : text) :
  single_line (a ++ drop_while is_dot t) ->
  forallb is_space (drop_while is_dot t) = true.
Proof.
  intros Hl. destruct (drop_while is_dot t) as [|c r] eqn:E; [reflexivity|].
  pose proof (drop_while_head _ _ _ _ E) as Hc. unfold is_dot in Hc.
  apply negb_false_iff, Ascii.eqb_eq in Hc. subst c.
  now rewrite (Hl a r eq_refl).
Qed.

(** Outside the else branch the Rewriter keeps all that a line holds: the
    output has the characters of the line that are not whitespace, in
    order. *)
Lemma fix_line_keeps_content (line : text) :
  single_line line ->
  found (re_match ELSE_BRACE_PATTERN line) = false ->
  content (concat (fix_line line)) = content line.
Proof.
  intros Hl Helse.
  assert (Hone : content (concat [line]) = content line).
  { simpl. now rewrite app_nil_r. }
  destruct (text_eqb (strip line) (T "{") || text_eqb (strip line) (T "}")) eqn:Hlone.
  { unfold fix_line, brace_step. now rewrite Hlone. }
  destruct (re_match ELSE_BRACE_PATTERN line) eqn:Ee; [discriminate|].
  destruct (re_search FUNCTION_BRACE_PATTERN line) as [m|] eqn:Em.
  2:{ unfold fix_line, brace_step. now rewrite Hlone, Ee, Em. }
  pose proof Em as Em'. unfold re_search in Em'.
  apply search_inv in Em' as (a & b & Hline & Hm & Hmin).
  apply function_at_inv in Hm as (y & z1 & z2 & Hb & Hy & Hz & Hmm).
  rewrite app_nil_r in Hmm. subst m b.
  assert (Hz1 : z1 = take_while is_space z1 ++ "{"%char :: z2).
  { rewrite <- (take_drop_while is_space z1) at 1. now rewrite Hz. }
  assert (Ha : a = []).
  { destruct a as [|c a]; [reflexivity|]. exfalso.
    assert (Hdot : forallb is_dot (c :: a) = true).
    { apply (single_line_no_newline (c :: a) (y ++ ")"%char :: z1));
        [now rewrite <- Hline | now destruct y]. }
    specialize (Hmin [] (c :: a) eq_refl ltac:(discriminate)). simpl in Hmin.
    apply (function_at_exists [] ((c :: a) ++ y) z1 z2).
    - rewrite forallb_app. now rewrite Hdot, Hy.
    - assumption.
    - rewrite <- app_assoc. exact Hmin. }
  subst a. simpl in Hline, Em.
  set (z3 := drop_while is_space z2).
  assert (Hz2 : z2 = take_while is_space z2 ++ take_while is_dot z3 ++ drop_while is_dot z3).
  { now rewrite take_drop_while, take_drop_while. }
  assert (Hrest : forallb is_space (drop_while is_dot z3) = true).
  { apply (single_line_tail
             (y ++ ")"%char :: take_while is_space z1 ++ "{"%char
                :: take_while is_space z2 ++ take_while is_dot z3) z3).
    rewrite <- !app_assoc. simpl. rewrite <- !app_assoc. simpl.
    rewrite <- !app_assoc. rewrite <- Hz2, <- Hz1, <- Hline. exact Hl. }
  assert (Hshape : line = (y ++ T ")") ++ take_while is_space z1 ++ T "{" ++ z2).
  { rewrite Hline at 1. rewrite Hz1 at 1. now rewrite <- app_assoc. }
  rewrite (fix_line_header line [] y z1 z2 Hlone Ee Em).
  rewrite indent_of_spec.
  assert (Hind : content (take_while is_space line) = [])
    by (apply content_blank, take_while_all).
  assert (Htrail : content (strip (take_while is_dot z3)) = content z2).
  { rewrite content_strip. rewrite Hz2 at 1. rewrite !content_app.
    rewrite (content_blank (take_while is_space z2)) by apply take_while_all.
    rewrite (content_blank (drop_while is_dot z3)) by assumption.
    now rewrite app_nil_r. }
  transitivity (content ((y ++ T ")") ++ take_while is_space z1 ++ T "{" ++ z2));
    [|now rewrite <- Hshape].
  fold z3. destruct (forallb is_space z2) eqn:Hblank; cbn [app concat];
    rewrite !content_app, ?Hind, ?Htrail;
    rewrite (content_blank (take_while is_space z1)) by apply take_while_all;
    change (content [LF]) with (@nil ascii);
    rewrite ?(content_blank z2 Hblank);
    cbn [app]; now rewrite ?app_nil_r, <- ?app_assoc.
Qed.

(** C2 fails on the code: after the brace of an else line the Rewriter
    keeps nothing.  The line [} else { x = 1; }] becomes the three lines
    [}], [else], [{], and the statement [x = 1;] and the closing brace are
    gone from the output.  (The rest of C2 holds: the line counts by
    [fix_line_length] and [fix_brace_placement_length], and outside the else
    branch nothing is lost, by [fix_line_keeps_content].) *)
Theorem else_shape_drops_trailing_text :
  fix_brace_placement [T "} else { x = 1; }" ++ [LF]] =
    [T "}" ++ [LF]; T "else" ++ [LF]; T "{" ++ [LF]] /\
  content (T "} else { x = 1; }" ++ [LF]) = T "}else{x=1;}" /\
  content (concat (fix_brace_placement [T "} else { x = 1; }" ++ [LF]])) = T "}else{".
Proof.
  repeat split; reflexivity.
Qed.

(** ** The pointer pattern *)

Lemma firstn_consumed_eq (aft x rest : text) :
  aft = x ++ rest -> firstn (length aft - length rest) aft = x.
Proof. intros ->. apply firstn_consumed. Qed.

Lemma pointer_at_spec (bef aft : text) :
  match_at POINTER_SPACING_PATTERN bef aft = pointer_at bef aft.
Proof.
  unfold match_at, pointer_at, POINTER_SPACING_PATTERN, Rep1. cbn [run].
  destruct (at_boundary bef aft); [|reflexivity].
  destruct aft as [|x aft']; [reflexivity|].
  cbn [take_while drop_while].
  destruct (is_word x) eqn:Hx; [|reflexivity].
  rewrite star_greedy_only.
  2:{ intros b c t Hc. cbn [star].
      now rewrite (word_not_space c Hc), (word_not_star c Hc). }
  rewrite star_greedy_only.
  2:{ intros b c t Hc. now rewrite (space_not_star c Hc). }
  destruct (drop_while is_space (drop_while is_word aft')) as [|c r3] eqn:E1;
    [reflexivity|].
  destruct (Ascii.eqb c "*") eqn:Ec; [|reflexivity].
  apply Ascii.eqb_eq in Ec. subst c.
  rewrite star_greedy_only.
  2:{ intros b c t Hc. now rewrite (space_not_word c Hc). }
  destruct (drop_while is_space r3) as [|y r4] eqn:E2; [reflexivity|].
  cbn [take_while drop_while].
  destruct (is_word y) eqn:Hy; [|reflexivity].
  erewrite star_greedy_some; [|unfold ret; reflexivity].
  cbv beta iota.
  assert (H1 : x :: aft' = (x :: take_while is_word aft') ++ drop_while is_word aft').
  { simpl. now rewrite take_drop_while. }
  assert (H2 : y :: r4 = (y :: take_while is_word r4) ++ drop_while is_word r4).
  { simpl. now rewrite take_drop_while. }
  assert (H0 : x :: aft' =
               ((x :: take_while is_word aft') ++
                take_while is_space (drop_while is_word aft') ++
                T "*" ++ take_while is_space r3 ++ y :: take_while is_word r4)
                 ++ drop_while is_word r4).
  { rewrite H1 at 1. rewrite <- (take_drop_while is_space (drop_while is_word aft')) at 1.
    rewrite E1. rewrite <- (take_drop_while is_space r3) at 1. rewrite E2.
    rewrite H2 at 1. norm_app. reflexivity. }
  rewrite (firstn_consumed_eq _ _ _ H1), (firstn_consumed_eq _ _ _ H2).
  rewrite (firstn_consumed_eq _ _ _ H0). reflexivity.
Qed.

Lemma hd_word_app (w rest : text) :
  w <> [] -> forallb is_word w = true -> hd_word (w ++ rest) = true.
Proof.
  destruct w as [|c w]; [congruence|]. simpl. intros _ H.
  now apply andb_true_iff in H as [Hc _].
Qed.

Lemma take_while_word_nil (s : text) : take_while is_word s = [] <-> hd_word s = false.
Proof.
  destruct s as [|c s]; simpl; [tauto|].
  destruct (is_word c); split; congruence.
Qed.

Lemma drop_while_word_hd (s : text) : hd_word (drop_while is_word s) = false.
Proof.
  destruct (drop_while is_word s) as [|c t] eqn:E; [reflexivity|].
  simpl. eapply drop_while_head; eassumption.
Qed.

Lemma pointer_at_inv (bef aft : text) (m : rmatch) :
  pointer_at bef aft = Some m ->
  exists w1 s1 s2 w2 rest,
    aft = w1 ++ s1 ++ T "*" ++ s2 ++ w2 ++ rest /\
    m = pointer_hit bef w1 s1 s2 w2 rest /\
    w1 <> [] /\ w2 <> [] /\
    forallb is_word w1 = true /\ forallb is_space s1 = true /\
    forallb is_space s2 = true /\ forallb is_word w2 = true /\
    hd_word rest = false /\ hd_word bef = false.
Proof.
  unfold pointer_at. intros H.
  destruct (at_boundary bef aft) eqn:Hb; [|discriminate].
  destruct (take_while is_word aft) as [|a w1] eqn:Ew; [discriminate|].
  destruct (drop_while is_space (drop_while is_word aft)) as [|c r3] eqn:E1;
    [discriminate|].
  destruct (Ascii.eqb c "*") eqn:Ec; [|discriminate].
  apply Ascii.eqb_eq in Ec. subst c.
  destruct (take_while is_word (drop_while is_space r3)) as [|y w2] eqn:E2;
    [discriminate|].
  inversion H; subst m; clear H.
  exists (a :: w1), (take_while is_space (drop_while is_word aft)),
    (take_while is_space r3), (y :: w2),
    (drop_while is_word (drop_while is_space r3)).
  assert (Haft : aft = (a :: w1) ++ take_while is_space (drop_while is_word aft)
                    ++ T "*" ++ take_while is_space r3 ++ (y :: w2)
                    ++ drop_while is_word (drop_while is_space r3)).
  { rewrite <- E2, take_drop_while, take_drop_while.
    change (T "*" ++ r3) with ("*"%char :: r3).
    rewrite <- E1, take_drop_while, <- Ew. now rewrite take_drop_while. }
  split; [exact Haft|]. split; [reflexivity|].
  split; [discriminate|]. split; [discriminate|].
  split; [rewrite <- Ew; apply take_while_all|].
  split; [apply take_while_all|]. split; [apply take_while_all|].
  split; [rewrite <- E2; apply take_while_all|].
  split; [apply drop_while_word_hd|].
  unfold at_boundary in Hb.
  assert (Hh : hd_word aft = true).
  { rewrite Haft. apply hd_word_app; [discriminate|].
    rewrite <- Ew. apply take_while_all. }
  rewrite Hh in Hb. now destruct (hd_word bef).
Qed.

Lemma pointer_at_intro (bef w1 s1 s2 w2 rest : text) :
  w1 <> [] -> w2 <> [] ->
  forallb is_word w1 = true -> forallb is_space s1 = true ->
  forallb is_space s2 = true -> forallb is_word w2 = true ->
  hd_word rest = false -> hd_word bef = false ->
  pointer_at bef (w1 ++ s1 ++ T "*" ++ s2 ++ w2 ++ rest) =
  Some (pointer_hit bef w1 s1 s2 w2 rest).
Proof.
  intros Hn1 Hn2 Hw1 Hs1 Hs2 Hw2 Hrest Hbef. unfold pointer_at, at_boundary.
  rewrite Hbef, hd_word_app by assumption. cbn [xorb].
  assert (E1 : take_while is_word (w1 ++ s1 ++ T "*" ++ s2 ++ w2 ++ rest) = w1).
  { apply take_while_app; [assumption|].
    destruct s1 as [|c s1]; simpl; [reflexivity|].
    simpl in Hs1. apply andb_true_iff in Hs1 as [Hc _]. auto with chars. }
  assert (E2 : drop_while is_word (w1 ++ s1 ++ T "*" ++ s2 ++ w2 ++ rest)
               = s1 ++ T "*" ++ s2 ++ w2 ++ rest).
  { apply drop_while_app; [assumption|].
    destruct s1 as [|c s1]; simpl; [reflexivity|].
    simpl in Hs1. apply andb_true_iff in Hs1 as [Hc _]. auto with chars. }
  rewrite E1, E2.
  rewrite (take_while_app is_space s1), (drop_while_app is_space s1);
    try assumption; try reflexivity.
  destruct w1 as [|a w1]; [congruence|].
  change (T "*" ++ s2 ++ w2 ++ rest) with ("*"%char :: s2 ++ w2 ++ rest).
  cbv iota. rewrite Ascii.eqb_refl.
  assert (Hw2hd : match w2 ++ rest with c :: _ => is_space c = false | [] => True end).
  { destruct w2 as [|c w2]; [congruence|]. simpl.
    simpl in Hw2. apply andb_true_iff in Hw2 as [Hc _]. auto with chars. }
  rewrite (take_while_app is_space s2), (drop_while_app is_space s2) by assumption.
  assert (Hresthd : match rest with c :: _ => is_word c = false | [] => True end).
  { destruct rest; [exact I | exact Hrest]. }
  rewrite (take_while_app is_word w2), (drop_while_app is_word w2) by assumption.
  destruct w2 as [|y w2]; [congruence|]. reflexivity.
Qed.

(** ** The scan of the Normalizer *)

Lemma scan_skip (r : regex) (x : text) : forall rest bef,
  scan_from r (length x) bef (x ++ rest) = scan_from r 0 (rev x ++ bef) rest.
Proof.
  induction x as [|c x IH]; intros rest bef; simpl.
  - now destruct rest.
  - rewrite IH. now rewrite <- app_assoc.
Qed.

Lemma scan_nil (bef : text) : scan_from POINTER_SPACING_PATTERN 0 bef [] = [].
Proof.
  simpl. rewrite pointer_at_spec. unfold pointer_at, at_boundary. simpl.
  now destruct (hd_word bef).
Qed.

Lemma scan_miss (bef : text) (c : ascii) (t : text) :
  pointer_at bef (c :: t) = None ->
  scan_from POINTER_SPACING_PATTERN 0 bef (c :: t) =
  Copy c :: scan_from POINTER_SPACING_PATTERN 0 (c :: bef) t.
Proof.
  intros H. simpl. now rewrite pointer_at_spec, H.
Qed.

Lemma scan_hit (bef w1 s1 s2 w2 rest : text) :
  w1 <> [] ->
  pointer_at bef (w1 ++ s1 ++ T "*" ++ s2 ++ w2 ++ rest) =
    Some (pointer_hit bef w1 s1 s2 w2 rest) ->
  scan_from POINTER_SPACING_PATTERN 0 bef (w1 ++ s1 ++ T "*" ++ s2 ++ w2 ++ rest) =
  Hit (pointer_hit bef w1 s1 s2 w2 rest)
    :: scan_from POINTER_SPACING_PATTERN 0
         (rev (w1 ++ s1 ++ T "*" ++ s2 ++ w2) ++ bef) rest.
Proof.
  intros Hn H.
  replace (w1 ++ s1 ++ T "*" ++ s2 ++ w2 ++ rest)
    with ((w1 ++ s1 ++ T "*" ++ s2 ++ w2) ++ rest) in *
    by now rewrite <- !app_assoc.
  destruct w1 as [|c w1]; [congruence|].
  cbn [app scan_from] in *. rewrite pointer_at_spec, H.
  cbn [pointer_hit m_groups group Nat.eqb app length].
  rewrite scan_skip. cbn [rev]. now rewrite <- app_assoc.
Qed.

Lemma hit_rest_shorter (w1 s1 s2 w2 rest : text) :
  length rest < length (w1 ++ s1 ++ T "*" ++ s2 ++ w2 ++ rest).
Proof.
  rewrite !length_app. change (length (T "*")) with 1. lia.
Qed.

(** The pieces of a scan cover the subject, in order. *)
Lemma scan_covers : forall n aft bef,
  length aft <= n ->
  flat_map raw (scan_from POINTER_SPACING_PATTERN 0 bef aft) = aft.
Proof.
  induction n as [|n IH]; intros aft bef Hlen.
  - destruct aft; [|simpl in Hlen; lia]. now rewrite scan_nil.
  - destruct aft as [|c t]; [now rewrite scan_nil|].
    destruct (pointer_at bef (c :: t)) as [m|] eqn:E.
    + destruct (pointer_at_inv _ _ _ E)
        as (w1 & s1 & s2 & w2 & rest & Haft & -> & Hn1 & _).
      rewrite Haft in *. rewrite scan_hit by assumption.
      cbn [flat_map raw pointer_hit m_groups group Nat.eqb].
      rewrite IH.
      * now rewrite <- !app_assoc.
      * pose proof (hit_rest_shorter w1 s1 s2 w2 rest). lia.
    + rewrite scan_miss by assumption. cbn [flat_map raw app].
      rewrite IH; [reflexivity | simpl in Hlen; lia].
Qed.

Lemma fix_from_nil (bef : text) : fix_from bef [] = [].
Proof. unfold fix_from. now rewrite scan_nil. Qed.

Lemma fix_from_miss (bef : text) (c : ascii) (t : text) :
  pointer_at bef (c :: t) = None -> fix_from bef (c :: t) = c :: fix_from (c :: bef) t.
Proof. intros H. unfold fix_from. now rewrite scan_miss. Qed.

Lemma fix_from_hit (bef w1 s1 s2 w2 rest : text) :
  w1 <> [] ->
  pointer_at bef (w1 ++ s1 ++ T "*" ++ s2 ++ w2 ++ rest) =
    Some (pointer_hit bef w1 s1 s2 w2 rest) ->
  fix_from bef (w1 ++ s1 ++ T "*" ++ s2 ++ w2 ++ rest) =
  w1 ++ T " *" ++ w2 ++ fix_from (rev (w1 ++ s1 ++ T "*" ++ s2 ++ w2) ++ bef) rest.
Proof.
  intros Hn H. unfold fix_from. rewrite scan_hit by assumption.
  cbn [flat_map expand pointer_hit m_groups].
  unfold POINTER_SPACING_REPLACEMENT. cbn [group Nat.eqb].
  now rewrite <- !app_assoc.
Qed.

(** The Normalizer keeps the first character of what it is given. *)
Lemma fix_from_head (bef : text) (c : ascii) (t : text) :
  exists R, fix_from bef (c :: t) = c :: R.
Proof.
  destruct (pointer_at bef (c :: t)) as [m|] eqn:E.
  - destruct (pointer_at_inv _ _ _ E)
      as (w1 & s1 & s2 & w2 & rest & Haft & -> & Hn1 & _).
    rewrite Haft in *. rewrite fix_from_hit by assumption.
    destruct w1 as [|a w1]; [congruence|]. inversion Haft; subst.
    cbn [app]. eauto.
  - rewrite fix_from_miss by assumption. eauto.
Qed.

Lemma fix_from_hd_word (bef t : text) : hd_word (fix_from bef t) = hd_word t.
Proof.
  destruct t as [|c t]; [now rewrite fix_from_nil|].
  now destruct (fix_from_head bef c t) as [R ->].
Qed.

(** Characters that cannot start a match are copied. *)
Lemma fix_from_copy_words (w : text) : forall bef v,
  hd_word bef = true -> forallb is_word w = true ->
  fix_from bef (w ++ v) = w ++ fix_from (rev w ++ bef) v.
Proof.
  induction w as [|c w IH]; intros bef v Hb Hw; [reflexivity|].
  simpl in Hw. apply andb_true_iff in Hw as [Hc Hw].
  cbn [app]. rewrite fix_from_miss.
  - rewrite IH; [|exact Hc|exact Hw]. cbn [rev]. now rewrite <- app_assoc.
  - unfold pointer_at, at_boundary. cbn [hd_word]. now rewrite Hb, Hc.
Qed.

Lemma fix_from_copy_others (u : text) : forall bef v,
  forallb (fun c => negb (is_word c)) u = true ->
  fix_from bef (u ++ v) = u ++ fix_from (rev u ++ bef) v.
Proof.
  induction u as [|c u IH]; intros bef v Hu; [reflexivity|].
  simpl in Hu. apply andb_true_iff in Hu as [Hc Hu].
  apply negb_true_iff in Hc.
  cbn [app]. rewrite fix_from_miss.
  - rewrite IH by exact Hu. cbn [rev]. now rewrite <- app_assoc.
  - unfold pointer_at. cbn [take_while]. rewrite Hc.
    now destruct (at_boundary bef (c :: u ++ v)).
Qed.

Lemma hd_word_cond (rest : text) :
  hd_word rest = false ->
  match rest with c :: _ => is_word c = false | [] => True end.
Proof. destruct rest; [trivial | exact (fun H => H)]. Qed.

Lemma spaces_not_words (u : text) :
  forallb is_space u = true -> forallb (fun c => negb (is_word c)) u = true.
Proof.
  intros H. apply forallb_forall. intros c Hc.
  apply negb_true_iff, space_not_word.
  revert c Hc. now apply forallb_forall.
Qed.

(** The Normalizer keeps the word and the whitespace that a text starts
    with. *)
Lemma fix_from_word_run (bef t : text) :
  hd_word bef = true ->
  take_while is_word (fix_from bef t) = take_while is_word t /\
  drop_while is_word (fix_from bef t) =
    fix_from (rev (take_while is_word t) ++ bef) (drop_while is_word t).
Proof.
  intros Hb. rewrite <- (take_drop_while is_word t) at 1 3.
  rewrite fix_from_copy_words; [|assumption|apply take_while_all].
  assert (Hhd : match fix_from (rev (take_while is_word t) ++ bef) (drop_while is_word t)
                with c :: _ => is_word c = false | [] => True end).
  { apply hd_word_cond. rewrite fix_from_hd_word. apply drop_while_word_hd. }
  split.
  - apply take_while_app; [apply take_while_all | exact Hhd].
  - apply drop_while_app; [apply take_while_all | exact Hhd].
Qed.

Lemma fix_from_space_run (bef t : text) :
  take_while is_space (fix_from bef t) = take_while is_space t /\
  drop_while is_space (fix_from bef t) =
    fix_from (rev (take_while is_space t) ++ bef) (drop_while is_space t).
Proof.
  rewrite <- (take_drop_while is_space t) at 1 3.
  rewrite fix_from_copy_others by (apply spaces_not_words, take_while_all).
  assert (Hhd : match fix_from (rev (take_while is_space t) ++ bef) (drop_while is_space t)
                with c :: _ => is_space c = false | [] => True end).
  { destruct (drop_while is_space t) as [|c t'] eqn:E.
    - now rewrite fix_from_nil.
    - destruct (fix_from_head (rev (take_while is_space t) ++ bef) c t') as [R ->].
      eapply drop_while_head; eassumption. }
  split.
  - apply take_while_app; [apply take_while_all | exact Hhd].
  - apply drop_while_app; [apply take_while_all | exact Hhd].
Qed.

(** Where the pattern does not match in the input, it does not match in
    the output either. *)
Lemma pointer_at_gap (bef bef' : text) (c : ascii) (t : text) :
  hd_word bef' = hd_word bef ->
  pointer_at bef (c :: t) = None ->
  pointer_at bef' (c :: fix_from (c :: bef) t) = None.
Proof.
  intros Hbef H. unfold pointer_at, at_boundary in *. cbn [hd_word] in *.
  rewrite Hbef. destruct (xorb (hd_word bef) (is_word c)); [|reflexivity].
  cbn [take_while drop_while] in *.
  destruct (is_word c) eqn:Hc; [|reflexivity].
  destruct (fix_from_word_run (c :: bef) t Hc) as [E1 E2]. rewrite E2.
  set (b1 := rev (take_while is_word t) ++ c :: bef).
  destruct (fix_from_space_run b1 (drop_while is_word t)) as [E3 E4]. rewrite E4.
  set (b2 := rev (take_while is_space (drop_while is_word t)) ++ b1).
  destruct (drop_while is_space (drop_while is_word t)) as [|d r3] eqn:E5.
  { now rewrite fix_from_nil. }
  destruct (Ascii.eqb d "*") eqn:Ed.
  - apply Ascii.eqb_eq in Ed. subst d.
    pose proof (fix_from_copy_others ["*"%char] b2 r3 eq_refl) as Estar.
    cbn [app rev] in Estar. rewrite Estar. rewrite Ascii.eqb_refl.
    destruct (fix_from_space_run ("*"%char :: b2) r3) as [E6 E7]. rewrite E7.
    destruct (take_while is_word (drop_while is_space r3)) as [|y w2] eqn:E8;
      [|discriminate].
    apply take_while_word_nil in E8.
    match goal with
    | |- match take_while is_word ?X with _ => _ end = None =>
        assert (E9 : take_while is_word X = [])
          by (apply take_while_word_nil; now rewrite fix_from_hd_word);
        now rewrite E9
    end.
  - destruct (fix_from_head b2 d r3) as [R ->]. now rewrite Ed.
Qed.

Lemma hd_word_rev_word (x w b : text) :
  w <> [] -> forallb is_word w = true -> hd_word (rev (x ++ w) ++ b) = true.
Proof.
  intros Hn Hw. rewrite rev_app_distr, <- app_assoc.
  apply hd_word_app.
  - intros E. apply (f_equal (@rev ascii)) in E. rewrite rev_involutive in E.
    now apply Hn.
  - now apply forallb_rev_true.
Qed.

Lemma hit_before_word (w1 s1 s2 w2 b : text) :
  w2 <> [] -> forallb is_word w2 = true ->
  hd_word (rev (w1 ++ s1 ++ T "*" ++ s2 ++ w2) ++ b) = true.
Proof.
  intros Hn Hw.
  replace (w1 ++ s1 ++ T "*" ++ s2 ++ w2) with ((w1 ++ s1 ++ T "*" ++ s2) ++ w2)
    by now rewrite <- !app_assoc.
  now apply hd_word_rev_word.
Qed.

Lemma pointer_at_occurrence (bef aft : text) (m : rmatch) :
  pointer_at bef aft = Some m ->
  exists w1 s1 s2 w2 rest,
    occurrence_here bef aft w1 s1 s2 w2 rest /\
    m = pointer_hit bef w1 s1 s2 w2 rest.
Proof.
  intros H. destruct (pointer_at_inv _ _ _ H)
    as (w1 & s1 & s2 & w2 & rest & Haft & -> & Hn1 & Hn2 & Hw1 & Hs1 & Hs2 & Hw2 & Hr & Hb).
  exists w1, s1, s2, w2, rest. unfold occurrence_here. repeat split; assumption.
Qed.

Lemma pointer_at_no_occurrence (bef aft : text) :
  pointer_at bef aft = None ->
  forall w1 s1 s2 w2 rest, ~ occurrence_here bef aft w1 s1 s2 w2 rest.
Proof.
  intros H w1 s1 s2 w2 rest (Haft & Hn1 & Hn2 & Hw1 & Hs1 & Hs2 & Hw2 & Hb & Hr).
  subst aft. rewrite pointer_at_intro in H by assumption. discriminate.
Qed.

(** The scan of the program is the scan described by [Scanned]. *)
Lemma scan_scanned : forall n aft bef,
  length aft <= n ->
  Scanned bef aft (scan_from POINTER_SPACING_PATTERN 0 bef aft).
Proof.
  induction n as [|n IH]; intros aft bef Hlen.
  - destruct aft; [|simpl in Hlen; lia]. rewrite scan_nil. constructor.
  - destruct aft as [|c t]; [rewrite scan_nil; constructor|].
    destruct (pointer_at bef (c :: t)) as [m|] eqn:E.
    + destruct (pointer_at_occurrence _ _ _ E)
        as (w1 & s1 & s2 & w2 & rest & Hocc & ->).
      pose proof Hocc as (Haft & Hn1 & _).
      rewrite Haft in *. rewrite scan_hit by assumption.
      apply Scanned_hit; [assumption|].
      apply IH. pose proof (hit_rest_shorter w1 s1 s2 w2 rest). lia.
    + rewrite scan_miss by assumption.
      apply Scanned_copy; [now apply pointer_at_no_occurrence|].
      apply IH. simpl in Hlen. lia.
Qed.

(** The scan of the output of the Normalizer finds only matches that are
    already in the normal form. *)
Lemma scan_output_normal : forall n aft bef bef',
  length aft <= n ->
  hd_word bef' = hd_word bef ->
  Forall normal_piece (scan_from POINTER_SPACING_PATTERN 0 bef' (fix_from bef aft)).
Proof.
  induction n as [|n IH]; intros aft bef bef' Hlen Hbef.
  - destruct aft; [|simpl in Hlen; lia]. rewrite fix_from_nil, scan_nil. constructor.
  - destruct aft as [|c t]; [rewrite fix_from_nil, scan_nil; constructor|].
    destruct (pointer_at bef (c :: t)) as [m|] eqn:E.
    + destruct (pointer_at_inv _ _ _ E)
        as (w1 & s1 & s2 & w2 & rest & Haft & -> & Hn1 & Hn2 & Hw1 & Hs1 & Hs2 & Hw2 & Hr & Hb).
      rewrite Haft in *. rewrite fix_from_hit by assumption.
      set (b1 := rev (w1 ++ s1 ++ T "*" ++ s2 ++ w2) ++ bef).
      change (w1 ++ T " *" ++ w2 ++ fix_from b1 rest)
        with (w1 ++ T " " ++ T "*" ++ [] ++ w2 ++ fix_from b1 rest).
      assert (Hhit : pointer_at bef' (w1 ++ T " " ++ T "*" ++ [] ++ w2 ++ fix_from b1 rest)
                     = Some (pointer_hit bef' w1 (T " ") [] w2 (fix_from b1 rest))).
      { apply pointer_at_intro; try assumption; try reflexivity.
        - now rewrite fix_from_hd_word.
        - now rewrite Hbef. }
      rewrite scan_hit by assumption. constructor.
      * exists w1, w2. reflexivity.
      * apply IH.
        -- pose proof (hit_rest_shorter w1 s1 s2 w2 rest). lia.
        -- unfold b1. now rewrite !hit_before_word.
    + rewrite fix_from_miss by assumption.
      rewrite scan_miss by (now apply pointer_at_gap).
      constructor; [exact I|]. apply IH; [simpl in Hlen; lia | reflexivity].
Qed.

Lemma normal_pieces_fixed (ps : list piece) :
  Forall normal_piece ps ->
  flat_map (expand POINTER_SPACING_REPLACEMENT) ps = flat_map raw ps.
Proof.
  induction 1 as [|pc ps Hpc _ IH]; [reflexivity|].
  simpl. rewrite IH. f_equal. destruct pc as [c|m]; [reflexivity|].
  destruct Hpc as (w1 & w2 & Hg). simpl.
  unfold POINTER_SPACING_REPLACEMENT. now rewrite Hg.
Qed.

(** C4. The Normalizer is idempotent: the scan of its output finds only
    matches that already read word, space, asterisk, word, and replaces
    each by itself. *)
Theorem fix_pointer_spacing_idempotent (L : text) :
  fix_pointer_spacing (fix_pointer_spacing L) = fix_pointer_spacing L.
Proof.
  unfold fix_pointer_spacing, re_sub, re_scan.
  change (flat_map (expand POINTER_SPACING_REPLACEMENT)
            (scan_from POINTER_SPACING_PATTERN 0 [] L)) with (fix_from [] L).
  rewrite normal_pieces_fixed.
  - apply scan_covers with (n := length (fix_from [] L)). lia.
  - apply scan_output_normal with (n := length L); [lia | reflexivity].
Qed.

(** C3, as amended.  The Normalizer scans the line left to right: where
    an occurrence of whole word, whitespace, asterisk, whitespace, whole
    word starts, it is a match and the scan resumes behind it, so matches
    do not overlap; elsewhere the character is copied.  The returned line
    is the input with each of these matches replaced by its first word,
    one space, the asterisk and its second word, everything else copied.
    In the returned line every match that the same scan finds reads word,
    one space, asterisk, word.  The input is a value and is not changed. *)
Theorem fix_pointer_spacing_scan (L : text) :
  Scanned [] L (re_scan POINTER_SPACING_PATTERN L) /\
  fix_pointer_spacing L = flat_map normalized (re_scan POINTER_SPACING_PATTERN L) /\
  Scanned [] (fix_pointer_spacing L)
          (re_scan POINTER_SPACING_PATTERN (fix_pointer_spacing L)) /\
  Forall normal_piece (re_scan POINTER_SPACING_PATTERN (fix_pointer_spacing L)).
Proof.
  unfold re_scan. split; [|split; [|split]].
  - apply scan_scanned with (n := length L). lia.
  - reflexivity.
  - apply scan_scanned with (n := length (fix_pointer_spacing L)). lia.
  - apply (scan_output_normal (length L) L [] []); [lia | reflexivity].
Qed.

(** C3 as it is written fails: the scan resumes behind the second word of a
    match, so an occurrence that starts with that word is not seen.  In
    [a*b*c] only [a*b] is replaced, and the returned line [a *b*c] holds
    the occurrence [b*c] with no space before its asterisk. *)
Lemma normalizer_leaves_occurrence :
  fix_pointer_spacing (T "a*b*c") = T "a *b*c" /\
  pointer_occurrence (fix_pointer_spacing (T "a*b*c")) (T "a *") (T "b") [] [] (T "c") [] /\
  ~ all_occurrences_spaced (fix_pointer_spacing (T "a*b*c")).
Proof.
  assert (Hocc : pointer_occurrence (fix_pointer_spacing (T "a*b*c"))
                   (T "a *") (T "b") [] [] (T "c") []).
  { exists (T "b*c"). split; [reflexivity|].
    unfold occurrence_here. repeat split; try reflexivity; discriminate. }
  split; [reflexivity|]. split; [exact Hocc|].
  intros H. destruct (H _ _ _ _ _ _ Hocc) as [H1 _]. discriminate H1.
Qed.

(** ** Lines that the Linter accepts *)

Lemma scan_no_match (r : regex) : forall aft bef,
  search_from r bef aft = None -> scan_from r 0 bef aft = map Copy aft.
Proof.
  induction aft as [|c t IH]; intros bef H; simpl in *.
  - now destruct (match_at r bef []).
  - destruct (match_at r bef (c :: t)); [discriminate|].
    now rewrite IH.
Qed.

Lemma re_sub_no_match (r : regex) (repl : caps -> text) (s : text) :
  found (re_search r s) = false -> re_sub r repl s = s.
Proof.
  unfold re_sub, re_scan, re_search. intros H.
  destruct (search_from r [] s) eqn:E; [discriminate|].
  rewrite scan_no_match by assumption.
  clear. induction s as [|c s IH]; simpl; [reflexivity | now rewrite IH].
Qed.

(** The header pattern is found only where the Linter's second check
    fires. *)
Lemma header_found_is_flagged (line : text) :
  found (re_search BRACE_ON_SAME_LINE_PATTERN line) = false ->
  re_search FUNCTION_BRACE_PATTERN line = None.
Proof.
  intros H. destruct (re_search FUNCTION_BRACE_PATTERN line) as [m|] eqn:E;
    [|reflexivity].
  unfold re_search in E. apply search_inv in E as (a & b & -> & Hm & _).
  apply function_at_inv in Hm as (y & z1 & z2 & -> & _ & Hz & _).
  rewrite app_assoc in H. rewrite header_here_found in H; [discriminate|].
  apply header_here_spec. eauto.
Qed.

Lemma fix_line_clean (line : text) :
  found (re_search BRACE_ON_SAME_LINE_PATTERN line) = false ->
  found (re_match ELSE_BRACE_PATTERN line) = false ->
  fix_line line = [line].
Proof.
  intros Hb He. unfold fix_line, brace_step.
  destruct (text_eqb (strip line) (T "{") || text_eqb (strip line) (T "}"));
    [reflexivity|].
  destruct (re_match ELSE_BRACE_PATTERN line); [discriminate|].
  now rewrite header_found_is_flagged.
Qed.






(** The line ends matter: a file with the line ends of Windows on which
    the Linter reports nothing, fixed on a system whose line separator is
    the line feed, is written back with line feeds only. *)
Example foreign_line_ends_rewritten :
  lint_lines "main.c" (file_lines sample_crlf "main.c") = [] /\
  forallb (fun line => negb (found (re_match ELSE_BRACE_PATTERN line)))
    (file_lines sample_crlf "main.c") = true /\
  fst (process_file true "main.c" sample_crlf) = Returned tt /\
  w_data (snd (process_file true "main.c" sample_crlf)) 1 =
    Some (T "int main(void)" ++ [LF] ++ T "{" ++ [LF] ++ T "}" ++ [LF]) /\
  w_data (snd (process_file true "main.c" sample_crlf)) 1 <> w_data sample_crlf 1.
Proof.
  split; [reflexivity|]. split; [reflexivity|]. split; [reflexivity|].
  split; [reflexivity|]. discriminate.
Qed.


(** * Further properties *)

(** ** The Normalizer and the text around the asterisks *)

Lemma scanned_nil (bef : text) (ps : list piece) : Scanned bef [] ps -> ps = [].
Proof.
  inversion 1 as [| |b a w1 s1 s2 w2 rest ps' Hocc Hs]; subst; [reflexivity|].
  destruct Hocc as (Haft & Hn1 & _). destruct w1; [congruence | discriminate].
Qed.

Lemma scanned_content (bef aft : text) (ps : list piece) :
  Scanned bef aft ps -> content (flat_map normalized ps) = content aft.
Proof.
  induction 1 as [bef|bef c t ps Hno Hs IH|bef aft w1 s1 s2 w2 rest ps Hocc Hs IH].
  - reflexivity.
  - cbn [flat_map normalized]. change (c :: t) with ([c] ++ t).
    rewrite !content_app. now rewrite IH.
  - destruct Hocc as (-> & _ & _ & _ & Hs1 & Hs2 & _).
    cbn [flat_map normalized pointer_hit m_groups group Nat.eqb].
    rewrite !content_app, IH.
    rewrite (content_blank s1 Hs1), (content_blank s2 Hs2).
    rewrite <- !app_assoc. reflexivity.
Qed.

(** X1. The Normalizer changes whitespace only: the line it returns has
    the same characters other than whitespace, in the same order. *)
Theorem fix_pointer_spacing_keeps_content (L : text) :
  content (fix_pointer_spacing L) = content L.
Proof.
  change (fix_pointer_spacing L)
    with (flat_map normalized (re_scan POINTER_SPACING_PATTERN L)).
  apply scanned_content with (bef := []).
  apply scan_scanned with (n := length L). lia.
Qed.

Lemma pointer_found_has_star (line : text) :
  found (re_search POINTER_SPACING_PATTERN line) = true -> In "*"%char line.
Proof.
  intros H. apply found_search in H as (a & b & x & rest & g & -> & -> & M).
  unfold POINTER_SPACING_PATTERN, Rep1 in M. inv_match.
  apply in_or_app. right. apply in_or_app. left.
  rewrite !in_app_iff. simpl. tauto.
Qed.

(** X2. A line without an asterisk is returned by the Normalizer as it
    is. *)
Theorem fix_pointer_spacing_without_asterisk (L : text) :
  ~ In "*"%char L -> fix_pointer_spacing L = L.
Proof.
  intros H. apply re_sub_no_match.
  destruct (found (re_search POINTER_SPACING_PATTERN L)) eqn:E; [|reflexivity].
  now apply pointer_found_has_star in E.
Qed.

Lemma fix_pointer_spacing_without_asterisk_witness :
  ~ In "*"%char (T "int x = a + b;" ++ [LF]) /\
  fix_pointer_spacing (T "int x = a + b;" ++ [LF]) = T "int x = a + b;" ++ [LF].
Proof.
  assert (H : ~ In "*"%char (T "int x = a + b;" ++ [LF])).
  { simpl. intros H. repeat (destruct H as [H|H]; [discriminate H|]). exact H. }
  split; [exact H|]. exact (fix_pointer_spacing_without_asterisk _ H).
Defined.

(** A search finds a match exactly when the scan has one. *)
Lemma search_found_hit (r : regex) : forall aft bef,
  found (search_from r bef aft) = existsb is_hit (scan_from r 0 bef aft).
Proof.
  induction aft as [|c t IH]; intros bef; simpl.
  - now destruct (match_at r bef []).
  - destruct (match_at r bef (c :: t)); [reflexivity|]. simpl. apply IH.
Qed.

Lemma scan_output_hits : forall n aft bef bef',
  length aft <= n ->
  hd_word bef' = hd_word bef ->
  existsb is_hit (scan_from POINTER_SPACING_PATTERN 0 bef' (fix_from bef aft)) =
  existsb is_hit (scan_from POINTER_SPACING_PATTERN 0 bef aft).
Proof.
  induction n as [|n IH]; intros aft bef bef' Hlen Hbef.
  - destruct aft; [|simpl in Hlen; lia]. now rewrite fix_from_nil, !scan_nil.
  - destruct aft as [|c t]; [now rewrite fix_from_nil, !scan_nil|].
    destruct (pointer_at bef (c :: t)) as [m|] eqn:E.
    + destruct (pointer_at_inv _ _ _ E)
        as (w1 & s1 & s2 & w2 & rest & Haft & -> & Hn1 & Hn2 & Hw1 & Hs1 & Hs2 & Hw2 & Hr & Hb).
      rewrite Haft in *. rewrite fix_from_hit by assumption.
      rewrite (scan_hit bef) by assumption.
      set (b1 := rev (w1 ++ s1 ++ T "*" ++ s2 ++ w2) ++ bef).
      change (w1 ++ T " *" ++ w2 ++ fix_from b1 rest)
        with (w1 ++ T " " ++ T "*" ++ [] ++ w2 ++ fix_from b1 rest).
      rewrite scan_hit; [reflexivity | assumption |].
      apply pointer_at_intro; try assumption; try reflexivity.
      * now rewrite fix_from_hd_word.
      * now rewrite Hbef.
    + rewrite fix_from_miss by assumption.
      rewrite (scan_miss bef) by assumption.
      rewrite scan_miss by (now apply pointer_at_gap).
      cbn [existsb is_hit orb]. apply IH; [simpl in Hlen; lia | reflexivity].
Qed.

(** X3. Normalizing a line never clears the pointer-spacing check: the
    check fires on the returned line exactly when it fires on the input,
    because the normal form [int *x] is itself a match of the pattern. *)
Theorem pointer_check_survives_normalizer (L : text) :
  found (re_search POINTER_SPACING_PATTERN (fix_pointer_spacing L)) =
  found (re_search POINTER_SPACING_PATTERN L).
Proof.
  unfold re_search. rewrite !search_found_hit.
  apply (scan_output_hits (length L) L [] []); [lia | reflexivity].
Qed.

(** ** The Normalizer and the end of the line *)

(** Take the conjunctions of boolean hypotheses apart. *)
Ltac split_andb :=
  repeat match goal with
    | H : _ && _ = true |- _ => apply andb_true_iff in H; destruct H
    end.

Lemma scanned_lf_free (bef aft : text) (ps : list piece) :
  Scanned bef aft ps -> forallb is_dot aft = true ->
  forallb is_dot (flat_map normalized ps) = true.
Proof.
  induction 1 as [bef|bef c t ps Hno Hs IH|bef aft w1 s1 s2 w2 rest ps Hocc Hs IH];
    intros Hdot.
  - reflexivity.
  - simpl in *. apply andb_true_iff in Hdot as [Hc Ht]. now rewrite Hc, IH.
  - destruct Hocc as (-> & _).
    cbn [flat_map normalized pointer_hit m_groups group Nat.eqb].
    rewrite !forallb_app in Hdot. split_andb.
    rewrite !forallb_app. rewrite IH by assumption.
    repeat (apply andb_true_iff; split); auto.
Qed.

(** Where a text that ends in a newline is cut in two, the newline is in
    the second part unless that part is empty. *)
Lemma app_snoc_split (x rest body : text) (c : ascii) :
  x ++ rest = body ++ [c] ->
  (rest = [] /\ x = body ++ [c]) \/
  (exists r, rest = r ++ [c] /\ body = x ++ r).
Proof.
  intros H. destruct rest as [|d rest] using rev_ind.
  - left. now rewrite app_nil_r in H.
  - right. rewrite app_assoc in H. apply app_inj_tail in H as [H1 H2].
    subst. now exists rest.
Qed.

Lemma scanned_terminated (bef aft : text) (ps : list piece) :
  Scanned bef aft ps ->
  forall body, aft = body ++ [LF] -> forallb is_dot body = true ->
  exists body', flat_map normalized ps = body' ++ [LF] /\ forallb is_dot body' = true.
Proof.
  induction 1 as [bef|bef c t ps Hno Hs IH|bef aft w1 s1 s2 w2 rest ps Hocc Hs IH];
    intros body Haft Hdot.
  - now destruct body.
  - destruct body as [|d body]; simpl in Haft; inversion Haft; subst.
    + apply scanned_nil in Hs. subst ps. now exists [].
    + simpl in Hdot. apply andb_true_iff in Hdot as [Hd Hdot].
      destruct (IH body eq_refl Hdot) as (body' & Hout & Hdot').
      exists (d :: body'). cbn [flat_map normalized]. rewrite Hout.
      split; [reflexivity|]. simpl. now rewrite Hd.
  - destruct Hocc as (-> & Hn1 & Hn2 & Hw1 & _ & _ & Hw2 & _).
    replace (w1 ++ s1 ++ T "*" ++ s2 ++ w2 ++ rest)
      with ((w1 ++ s1 ++ T "*" ++ s2 ++ w2) ++ rest) in Haft
      by now rewrite <- !app_assoc.
    apply app_snoc_split in Haft as [[-> Hx]|(r & -> & ->)].
    + exfalso. pose proof (hit_before_word w1 s1 s2 w2 [] Hn2 Hw2) as Hlast.
      rewrite Hx, rev_app_distr in Hlast. discriminate Hlast.
    + rewrite !forallb_app in Hdot. split_andb.
      destruct (IH r eq_refl ltac:(assumption)) as (body' & Hout & Hdot').
      exists (w1 ++ T " *" ++ w2 ++ body').
      cbn [flat_map normalized pointer_hit m_groups group Nat.eqb].
      rewrite Hout. split; [now rewrite <- !app_assoc|].
      rewrite !forallb_app. repeat (apply andb_true_iff; split); auto.
Qed.

(** X4. The Normalizer leaves the end of a line alone: a complete line
    (text without a newline, then the newline) comes back as a complete
    line, and a line without a newline comes back without one and is empty
    only if it was. *)
Theorem fix_pointer_spacing_keeps_line (L : text) :
  (terminated L -> terminated (fix_pointer_spacing L)) /\
  (forallb is_dot L = true -> forallb is_dot (fix_pointer_spacing L) = true) /\
  (fix_pointer_spacing L = [] <-> L = []).
Proof.
  assert (Hs : Scanned [] L (re_scan POINTER_SPACING_PATTERN L))
    by (apply scan_scanned with (n := length L); lia).
  change (fix_pointer_spacing L)
    with (flat_map normalized (re_scan POINTER_SPACING_PATTERN L)).
  split; [|split].
  - intros (body & HL & Hdot). exact (scanned_terminated _ _ _ Hs body HL Hdot).
  - apply scanned_lf_free with (bef := []). exact Hs.
  - change (flat_map normalized (re_scan POINTER_SPACING_PATTERN L))
      with (fix_from [] L).
    destruct L as [|c t]; [now rewrite fix_from_nil|].
    destruct (fix_from_head [] c t) as [R ->]. split; discriminate.
Qed.

Lemma fix_pointer_spacing_keeps_line_witness :
  terminated (T "int* x;" ++ [LF]) /\
  terminated (fix_pointer_spacing (T "int* x;" ++ [LF])).
Proof.
  assert (H : terminated (T "int* x;" ++ [LF])).
  { eexists. split; reflexivity. }
  split; [exact H|].
  exact (proj1 (fix_pointer_spacing_keeps_line (T "int* x;" ++ [LF])) H).
Defined.

(** ** Lines that the Rewriter does not touch *)

Lemma spaces_no_lbrace (a : text) :
  forallb is_space a = true -> ~ In "{"%char a.
Proof.
  intros H Hin. pose proof (proj1 (forallb_forall _ _) H _ Hin) as Hc.
  discriminate Hc.
Qed.

Lemma not_lbrace_no_lbrace (a : text) :
  forallb (is_not "{") a = true -> ~ In "{"%char a.
Proof.
  intros H Hin. pose proof (proj1 (forallb_forall _ _) H _ Hin) as Hc.
  discriminate Hc.
Qed.

Lemma else_shape_has_lbrace (line : text) :
  found (re_match ELSE_BRACE_PATTERN line) = true -> In "{"%char line.
Proof.
  destruct (re_match ELSE_BRACE_PATTERN line) as [m|] eqn:E; [|discriminate].
  intros _. destruct (else_shape_inv _ _ E)
    as (indent & sp & body & sp' & rest & -> & _).
  rewrite !in_app_iff. simpl. tauto.
Qed.

Lemma header_found_has_lbrace (line : text) :
  found (re_search FUNCTION_BRACE_PATTERN line) = true -> In "{"%char line.
Proof.
  unfold re_search.
  destruct (search_from FUNCTION_BRACE_PATTERN [] line) as [m|] eqn:E; [|discriminate].
  intros _. apply search_inv in E as (a & b & -> & Hm & _).
  apply function_at_inv in Hm as (y & z1 & z2 & -> & _ & Hz & _).
  rewrite <- (take_drop_while is_space z1), Hz.
  rewrite !in_app_iff. simpl. rewrite !in_app_iff. simpl. tauto.
Qed.

Lemma fix_line_without_lbrace (line : text) :
  ~ In "{"%char line -> fix_line line = [line].
Proof.
  intros H. unfold fix_line, brace_step.
  destruct (text_eqb (strip line) (T "{") || text_eqb (strip line) (T "}"));
    [reflexivity|].
  destruct (re_match ELSE_BRACE_PATTERN line) eqn:Ee.
  { exfalso. apply H, else_shape_has_lbrace. now rewrite Ee. }
  destruct (re_search FUNCTION_BRACE_PATTERN line) eqn:Ef; [|reflexivity].
  exfalso. apply H, header_found_has_lbrace. now rewrite Ef.
Qed.

(** X5. The Rewriter only touches lines with an opening brace: a sequence
    of lines none of which holds one is returned as it is. *)
Theorem fix_brace_placement_without_lbrace (lines : list text) :
  Forall (fun line => ~ In "{"%char line) lines ->
  fix_brace_placement lines = lines.
Proof.
  intros H. rewrite fix_brace_placement_flat.
  induction H as [|l ls Hl _ IH]; [reflexivity|].
  simpl. now rewrite (fix_line_without_lbrace l Hl), IH.
Qed.

Lemma fix_brace_placement_without_lbrace_witness :
  Forall (fun line => ~ In "{"%char line)
    [T "int x;" ++ [LF]; T "}" ++ [LF]; T "return f(x);" ++ [LF]] /\
  fix_brace_placement [T "int x;" ++ [LF]; T "}" ++ [LF]; T "return f(x);" ++ [LF]] =
    [T "int x;" ++ [LF]; T "}" ++ [LF]; T "return f(x);" ++ [LF]].
Proof.
  assert (H : Forall (fun line => ~ In "{"%char line)
                [T "int x;" ++ [LF]; T "}" ++ [LF]; T "return f(x);" ++ [LF]]).
  { repeat constructor; simpl; intros H;
      repeat (destruct H as [H|H]; [discriminate H|]); exact H. }
  split; [exact H|]. exact (fix_brace_placement_without_lbrace _ H).
Defined.

(** ** The else branch, once more *)

Lemma fix_line_else (line : text) (m : rmatch) :
  re_match ELSE_BRACE_PATTERN line = Some m ->
  fix_line line =
    [group 1 (m_groups m) ++ T "}" ++ [LF];
     group 1 (m_groups m) ++ strip (group 2 (m_groups m)) ++ [LF];
     group 1 (m_groups m) ++ T "{" ++ [LF]].
Proof.
  intros Hm. destruct (else_shape_inv _ _ Hm)
    as (indent & sp & body & sp' & rest & Hline & Hi & Hsp & Hsp' & Hb & Hnb & H1 & H2).
  unfold fix_line, brace_step. rewrite not_lone_brace; [now rewrite Hm|].
  rewrite Hline. destruct (starts_with_cons _ _ _ Hb) as (body' & -> & _).
  change (indent ++ T "}" ++ sp ++ ("e"%char :: body') ++ sp' ++ T "{" ++ rest)
    with (indent ++ "}"%char :: sp ++ "e"%char :: (body' ++ sp' ++ T "{" ++ rest)).
  apply strip_two; reflexivity.
Qed.

Lemma strip_incl (s : text) (c : ascii) : In c (strip s) -> In c s.
Proof.
  destruct (strip_parts s) as (a & b & Hs & _). intros H.
  rewrite Hs, !in_app_iff. tauto.
Qed.

(** X6. The three lines that the Rewriter makes of an else line are in
    their final form: a second pass of the Rewriter returns them as they
    are. *)
Theorem else_split_is_stable (line : text) :
  found (re_match ELSE_BRACE_PATTERN line) = true ->
  length (fix_line line) = 3 /\
  fix_brace_placement (fix_line line) = fix_line line.
Proof.
  destruct (re_match ELSE_BRACE_PATTERN line) as [m|] eqn:Hm; [|discriminate].
  intros _. rewrite (fix_line_else _ _ Hm). split; [reflexivity|].
  destruct (else_shape_inv _ _ Hm)
    as (indent & sp & body & sp' & rest & Hline & Hi & Hsp & Hsp' & Hb & Hnb & -> & ->).
  rewrite fix_brace_placement_flat. cbn [flat_map].
  rewrite (fix_line_without_lbrace (indent ++ T "}" ++ [LF])).
  2:{ rewrite !in_app_iff. intros [H|[H|H]].
      - now apply (spaces_no_lbrace indent).
      - simpl in H. destruct H as [H|[]]. discriminate H.
      - simpl in H. destruct H as [H|[]]. discriminate H. }
  rewrite (fix_line_without_lbrace (indent ++ strip body ++ [LF])).
  2:{ rewrite !in_app_iff. intros [H|[H|H]].
      - now apply (spaces_no_lbrace indent).
      - apply strip_incl in H. now apply (not_lbrace_no_lbrace body).
      - simpl in H. destruct H as [H|[]]. discriminate H. }
  assert (Hlone : fix_line (indent ++ T "{" ++ [LF]) = [indent ++ T "{" ++ [LF]]).
  { unfold fix_line, brace_step.
    rewrite (strip_pad indent (T "{") [LF] Hi eq_refl). reflexivity. }
  rewrite Hlone. reflexivity.
Qed.

Lemma else_split_is_stable_witness :
  found (re_match ELSE_BRACE_PATTERN (T "  } else if (x) { y();" ++ [LF])) = true /\
  fix_brace_placement (fix_line (T "  } else if (x) { y();" ++ [LF])) =
    [T "  }" ++ [LF]; T "  else if (x)" ++ [LF]; T "  {" ++ [LF]].
Proof.
  split; [reflexivity|].
  exact (proj2 (else_split_is_stable (T "  } else if (x) { y();" ++ [LF]) eq_refl)).
Defined.

(** X8. What the Rewriter keeps of an else line is the text up to its
    first opening brace: in the sequence that [fix_brace_placement]
    returns, the lines that take the place of the else line hold the
    characters other than whitespace of that part, in order, and none of
    what follows the brace. *)
Theorem else_split_keeps_up_to_brace (line : text) :
  found (re_match ELSE_BRACE_PATTERN line) = true ->
  exists head dropped,
    line = head ++ T "{" ++ dropped /\ ~ In "{"%char head /\
    content (concat (fix_brace_placement [line])) = content (head ++ T "{") /\
    forall l1 l2,
      content (concat (fix_brace_placement (l1 ++ line :: l2))) =
      content (concat (fix_brace_placement l1))
        ++ content (head ++ T "{")
        ++ content (concat (fix_brace_placement l2)).
Proof.
  destruct (re_match ELSE_BRACE_PATTERN line) as [m|] eqn:Hm; [|discriminate].
  intros _.
  destruct (else_shape_inv _ _ Hm)
    as (indent & sp & body & sp' & rest & Hline & Hi & Hsp & Hsp' & Hb & Hnb & H1 & H2).
  exists (indent ++ T "}" ++ sp ++ body ++ sp'), rest.
  assert (Hkept : content (concat (fix_line line)) =
                  content ((indent ++ T "}" ++ sp ++ body ++ sp') ++ T "{")).
  { rewrite (fix_line_else _ _ Hm), H1, H2.
    cbn [concat]. rewrite !content_app, content_strip.
    rewrite (content_blank indent Hi), (content_blank sp Hsp), (content_blank sp' Hsp').
    change (content [LF]) with (@nil ascii). cbn [app].
    now rewrite !app_nil_r, <- ?app_assoc. }
  split; [|split; [|split]].
  - rewrite Hline. now rewrite <- !app_assoc.
  - rewrite !in_app_iff. intros [H|[H|[H|[H|H]]]].
    + now apply (spaces_no_lbrace indent).
    + simpl in H. destruct H as [H|[]]. discriminate H.
    + now apply (spaces_no_lbrace sp).
    + now apply (not_lbrace_no_lbrace body).
    + now apply (spaces_no_lbrace sp').
  - rewrite fix_brace_placement_flat. cbn [flat_map]. rewrite app_nil_r.
    exact Hkept.
  - intros l1 l2. rewrite !fix_brace_placement_flat, flat_map_app.
    change (flat_map fix_line (line :: l2))
      with (fix_line line ++ flat_map fix_line l2).
    rewrite !concat_app.
    rewrite (content_app (concat (flat_map fix_line l1))).
    rewrite (content_app (concat (fix_line line))).
    now rewrite Hkept.
Qed.

Lemma else_split_keeps_up_to_brace_witness :
  found (re_match ELSE_BRACE_PATTERN (T "} else { x = 1; }" ++ [LF])) = true /\
  exists head dropped,
    T "} else { x = 1; }" ++ [LF] = head ++ T "{" ++ dropped /\
    ~ In "{"%char head /\
    content (concat (fix_brace_placement [T "} else { x = 1; }" ++ [LF]])) =
      content (head ++ T "{").
Proof.
  split; [reflexivity|].
  destruct (else_split_keeps_up_to_brace (T "} else { x = 1; }" ++ [LF]) eq_refl)
    as (head & dropped & H1 & H2 & H3 & _).
  exists head, dropped. split; [exact H1|]. split; [exact H2 | exact H3].
Defined.

(** X7. On lines as [readlines] yields them, none of the else shape, the
    Rewriter only moves text: the lines it returns hold the characters
    other than whitespace of the input, in order. *)
Theorem fix_brace_placement_keeps_content (lines : list text) :
  Forall single_line lines ->
  forallb (fun line => negb (found (re_match ELSE_BRACE_PATTERN line))) lines = true ->
  content (concat (fix_brace_placement lines)) = content (concat lines).
Proof.
  intros Hs He. rewrite fix_brace_placement_flat.
  induction Hs as [|l ls Hl _ IH]; [reflexivity|].
  simpl in He. apply andb_true_iff in He as [Hl' He].
  apply negb_true_iff in Hl'.
  cbn [flat_map concat]. rewrite concat_app, !content_app.
  now rewrite (fix_line_keeps_content l Hl Hl'), IH.
Qed.

Lemma terminated_single_line (l : text) : terminated l -> single_line l.
Proof.
  intros (body & -> & Hdot) a b H. symmetry in H.
  apply app_snoc_split in H as [[H _]|(r & Hr & Hbody)]; [discriminate|].
  destruct r as [|d r]; simpl in Hr; inversion Hr; subst; [reflexivity|].
  rewrite forallb_app in Hdot. apply andb_true_iff in Hdot as [_ Hdot].
  discriminate Hdot.
Qed.

Lemma lf_free_single_line (l : text) : forallb is_dot l = true -> single_line l.
Proof.
  intros Hdot a b ->. rewrite forallb_app in Hdot.
  apply andb_true_iff in Hdot as [_ Hdot]. discriminate Hdot.
Qed.

Lemma fix_brace_placement_keeps_content_witness :
  Forall single_line sample_inline_lines /\
  forallb (fun line => negb (found (re_match ELSE_BRACE_PATTERN line)))
    sample_inline_lines = true /\
  content (concat (fix_brace_placement sample_inline_lines)) =
  content (concat sample_inline_lines).
Proof.
  assert (Hs : Forall single_line sample_inline_lines).
  { repeat constructor; apply terminated_single_line; eexists; split;
      reflexivity. }
  split; [exact Hs|]. split; [reflexivity|].
  exact (fix_brace_placement_keeps_content _ Hs eq_refl).
Defined.

(** ** Lines in, lines out *)

Lemma normalizer_terminated (L : text) :
  terminated L -> terminated (fix_pointer_spacing L).
Proof.
  intros (body & HL & Hdot).
  change (fix_pointer_spacing L)
    with (flat_map normalized (re_scan POINTER_SPACING_PATTERN L)).
  apply (scanned_terminated [] L _) with (body := body); [|exact HL|exact Hdot].
  apply scan_scanned with (n := length L). lia.
Qed.

Lemma normalizer_lf_free (L : text) :
  forallb is_dot L = true -> forallb is_dot (fix_pointer_spacing L) = true.
Proof.
  change (fix_pointer_spacing L)
    with (flat_map normalized (re_scan POINTER_SPACING_PATTERN L)).
  apply scanned_lf_free with (bef := []).
  apply scan_scanned with (n := length L). lia.
Qed.

Lemma normalizer_nonempty (L : text) : L <> [] -> fix_pointer_spacing L <> [].
Proof.
  change (fix_pointer_spacing L) with (fix_from [] L).
  destruct L as [|c t]; [congruence|]. intros _.
  now destruct (fix_from_head [] c t) as [R ->].
Qed.

Lemma normalizer_Lines (ls : list text) :
  Lines ls -> Lines (map fix_pointer_spacing ls).
Proof.
  induction 1 as [|l Hne Hdot|l ls Ht _ IH]; simpl.
  - constructor.
  - apply Lines_last; [now apply normalizer_nonempty | now apply normalizer_lf_free].
  - apply Lines_cons; [now apply normalizer_terminated | exact IH].
Qed.

Lemma Lines_app (a b : list text) :
  Forall terminated a -> Lines b -> Lines (a ++ b).
Proof.
  induction 1 as [|l a Hl _ IH]; intros Hb; simpl; [exact Hb|].
  apply Lines_cons; auto.
Qed.

Lemma terminated_line (x : text) :
  forallb is_dot x = true -> terminated (x ++ [LF]).
Proof. intros H. now exists x. Qed.

(** On a single line the header pattern matches from the start of the
    line. *)
Lemma header_single_line (line : text) (m : rmatch) :
  single_line line ->
  re_search FUNCTION_BRACE_PATTERN line = Some m ->
  exists y z1 z2,
    line = y ++ ")"%char :: z1 /\ forallb is_dot y = true /\
    drop_while is_space z1 = "{"%char :: z2 /\
    m = header_match [] y z1 z2.
Proof.
  intros Hl Em. unfold re_search in Em.
  apply search_inv in Em as (a & b & Hline & Hm & Hmin).
  apply function_at_inv in Hm as (y & z1 & z2 & Hb & Hy & Hz & Hmm).
  rewrite app_nil_r in Hmm. subst m b.
  assert (Ha : a = []).
  { destruct a as [|c a]; [reflexivity|]. exfalso.
    assert (Hdot : forallb is_dot (c :: a) = true).
    { apply (single_line_no_newline (c :: a) (y ++ ")"%char :: z1));
        [now rewrite <- Hline | now destruct y]. }
    specialize (Hmin [] (c :: a) eq_refl ltac:(discriminate)). simpl in Hmin.
    apply (function_at_exists [] ((c :: a) ++ y) z1 z2).
    - rewrite forallb_app. now rewrite Hdot, Hy.
    - assumption.
    - rewrite <- app_assoc. exact Hmin. }
  subst a. exists y, z1, z2. auto.
Qed.

Lemma indent_lf_free (line : text) (c : ascii) :
  single_line line -> In c line -> is_space c = false ->
  forallb is_dot (take_while is_space line) = true.
Proof.
  intros Hl Hin Hc.
  apply (single_line_no_newline _ (drop_while is_space line)).
  - now rewrite take_drop_while.
  - intros E. apply drop_while_nil_iff in E.
    rewrite (proj1 (forallb_forall _ _) E c Hin) in Hc. discriminate.
Qed.

Lemma strip_lf_free (s : text) :
  forallb is_dot s = true -> forallb is_dot (strip s) = true.
Proof.
  destruct (strip_parts s) as (a & b & Hs & _). intros H.
  rewrite Hs, !forallb_app in H. now split_andb.
Qed.

(** The lines made of one line: the line itself, or complete lines only. *)
Lemma fix_line_lines (l : text) :
  single_line l -> fix_line l = [l] \/ Forall terminated (fix_line l).
Proof.
  intros Hl.
  destruct (re_match ELSE_BRACE_PATTERN l) as [m|] eqn:Ee.
  { right. rewrite (fix_line_else _ _ Ee).
    destruct (else_shape_inv _ _ Ee)
      as (indent & sp & body & sp' & rest & Hline & Hi & Hsp & Hsp' & Hb & Hnb & -> & ->).
    assert (Hdot : forallb is_dot (indent ++ T "}" ++ sp ++ body ++ sp') = true).
    { apply (single_line_no_newline _ (T "{" ++ rest)); [|discriminate].
      rewrite <- !app_assoc. now rewrite <- Hline. }
    rewrite !forallb_app in Hdot. split_andb.
    repeat constructor.
    - rewrite app_assoc. apply terminated_line. rewrite forallb_app.
      apply andb_true_iff. now split.
    - rewrite app_assoc. apply terminated_line. rewrite forallb_app.
      apply andb_true_iff. split; [assumption | now apply strip_lf_free].
    - rewrite app_assoc. apply terminated_line. rewrite forallb_app.
      apply andb_true_iff. now split. }
  destruct (text_eqb (strip l) (T "{") || text_eqb (strip l) (T "}")) eqn:Hlone.
  { left. unfold fix_line, brace_step. now rewrite Hlone. }
  destruct (re_search FUNCTION_BRACE_PATTERN l) as [m|] eqn:Ef.
  2:{ left. unfold fix_line, brace_step. now rewrite Hlone, Ee, Ef. }
  right.
  destruct (header_single_line l m Hl Ef) as (y & z1 & z2 & Hline & Hy & Hz & ->).
  rewrite (fix_line_header l [] y z1 z2 Hlone Ee Ef), indent_of_spec.
  assert (Hind : forallb is_dot (take_while is_space l) = true).
  { apply (indent_lf_free l ")"%char Hl); [|reflexivity].
    rewrite Hline, in_app_iff. right. now left. }
  assert (H1 : terminated ((y ++ T ")") ++ [LF])).
  { apply terminated_line. rewrite forallb_app. apply andb_true_iff. now split. }
  assert (H2 : terminated (take_while is_space l ++ T "{" ++ [LF])).
  { rewrite app_assoc. apply terminated_line. rewrite forallb_app.
    apply andb_true_iff. now split. }
  destruct (forallb is_space z2); repeat constructor; try assumption.
  rewrite app_assoc. apply terminated_line. rewrite forallb_app.
  apply andb_true_iff. split; [assumption|]. apply strip_lf_free, take_while_all.
Qed.


Lemma rewriter_Lines (ls : list text) :
  Lines ls -> Lines (fix_brace_placement ls).
Proof.
  rewrite fix_brace_placement_flat.
  induction 1 as [|l Hne Hdot|l ls Ht _ IH]; simpl.
  - constructor.
  - rewrite app_nil_r.
    destruct (fix_line_lines l (lf_free_single_line l Hdot)) as [->|H].
    + now apply Lines_last.
    + rewrite <- (app_nil_r (fix_line l)). apply Lines_app; [exact H | constructor].
  - apply Lines_app; [|exact IH].
    destruct (fix_line_lines l (terminated_single_line l Ht)) as [->|H];
      [now constructor | exact H].
Qed.

(** [readlines] yields lines, and reads back the lines that [writelines]
    wrote. *)
Lemma split_lines_Lines (s : text) : forall cur,
  forallb is_dot cur = true -> Lines (split_lines cur s).
Proof.
  induction s as [|c s IH]; intros cur Hcur; simpl.
  - destruct cur as [|d cur]; [constructor|].
    apply Lines_last; [|now apply forallb_rev_true].
    intros E. apply (f_equal (@length ascii)) in E.
    rewrite length_rev in E. discriminate.
  - destruct (Ascii.eqb c LF) eqn:Ec.
    + apply Ascii.eqb_eq in Ec. subst c. apply Lines_cons; [|now apply IH].
      simpl. apply terminated_line. now apply forallb_rev_true.
    + apply IH. simpl. unfold is_dot at 1. now rewrite Ec.
Qed.

Lemma split_lines_complete (body : text) : forall cur more,
  forallb is_dot body = true ->
  split_lines cur (body ++ LF :: more) =
  (rev cur ++ body ++ [LF]) :: split_lines [] more.
Proof.
  induction body as [|c body IH]; intros cur more Hdot; simpl.
  - reflexivity.
  - simpl in Hdot. apply andb_true_iff in Hdot as [Hc Hdot].
    unfold is_dot in Hc. apply negb_true_iff in Hc. rewrite Hc.
    rewrite IH by assumption. simpl. now rewrite <- app_assoc.
Qed.

Lemma split_lines_partial (l : text) : forall cur,
  forallb is_dot l = true -> rev cur ++ l <> [] ->
  split_lines cur l = [rev cur ++ l].
Proof.
  induction l as [|c l IH]; intros cur Hdot Hne; simpl.
  - rewrite app_nil_r in *. destruct cur; [simpl in Hne; congruence | reflexivity].
  - simpl in Hdot. apply andb_true_iff in Hdot as [Hc Hdot].
    unfold is_dot in Hc. apply negb_true_iff in Hc. rewrite Hc.
    rewrite IH; [|assumption|].
    + simpl. now rewrite <- app_assoc.
    + simpl. rewrite <- app_assoc. now destruct (rev cur).
Qed.

Lemma split_lines_concat (ls : list text) :
  Lines ls -> split_lines [] (concat ls) = ls.
Proof.
  induction 1 as [|l Hne Hdot|l ls (body & -> & Hdot) _ IH]; simpl.
  - reflexivity.
  - rewrite app_nil_r. now apply split_lines_partial.
  - rewrite <- app_assoc. simpl. rewrite split_lines_complete by assumption.
    now rewrite IH.
Qed.

(** X9. The fix pass maps the lines of a file to the lines of a file:
    whatever the text, the lines it returns for the lines [readlines]
    yields are complete lines (no newline but the last character), only
    the last of which may lack its newline, so that writing them and
    reading them again gives the same lines. *)
Theorem fix_pass_yields_lines (s : text) :
  Lines (fix_pass (split_lines [] s)) /\
  split_lines [] (concat (fix_pass (split_lines [] s))) = fix_pass (split_lines [] s).
Proof.
  assert (H : Lines (fix_pass (split_lines [] s))).
  { unfold fix_pass. apply rewriter_Lines, normalizer_Lines.
    now apply split_lines_Lines. }
  split; [exact H | now apply split_lines_concat].
Qed.

(** ** Characters that the fix pass keeps out *)

Section Kept.

Variable P : ascii -> bool.
Hypothesis P_space : P " " = true.
Hypothesis P_star : P "*" = true.
Hypothesis P_lbrace : P "{" = true.
Hypothesis P_rbrace : P "}" = true.
Hypothesis P_newline : P LF = true.










End Kept.

(** ** Line ends, written and read back *)








(** ** One file in fix mode *)




(** ** Discovery *)

Lemma starts_with_spec (p s : text) :
  starts_with p s = true <-> exists t, s = p ++ t.
Proof.
  revert s. induction p as [|c p IH]; intros s; simpl.
  - split; [intros _; now exists s | reflexivity].
  - destruct s as [|d s].
    + split; [discriminate | intros (t & H); discriminate].
    + rewrite andb_true_iff, IH. split.
      * intros (Hc & t & ->). apply Ascii.eqb_eq in Hc. subst d. now exists t.
      * intros (t & H). inversion H; subst. split; [apply Ascii.eqb_refl | now exists t].
Qed.

Lemma endswith_spec (s suffix : text) :
  endswith s suffix = true <-> exists stem, s = stem ++ suffix.
Proof.
  unfold endswith. rewrite starts_with_spec. split.
  - intros (t & H). exists (rev t).
    apply (f_equal (@rev ascii)) in H.
    now rewrite rev_involutive, rev_app_distr, rev_involutive in H.
  - intros (stem & ->). exists (rev stem). apply rev_app_distr.
Qed.

Lemma has_c_extension_spec (name : string) :
  has_c_extension name = true <->
  exists stem, T name = stem ++ T ".c" \/ T name = stem ++ T ".h".
Proof.
  unfold has_c_extension, C_EXTENSIONS. simpl. rewrite orb_false_r, orb_true_iff.
  rewrite !endswith_spec. split.
  - intros [(stem & H)|(stem & H)]; exists stem; auto.
  - intros (stem & [H|H]); [left | right]; now exists stem.
Qed.

(** X13. Discovery returns, in the order of the walk and of the file lists
    of its entries, the joined paths of exactly the files whose name ends
    in [.c] or [.h]; it changes nothing and prints nothing. *)
Theorem get_all_c_files_selects (path : string) (w : world) :
  get_all_c_files path w = (Returned (walk_c_files (w_walk w path)), w) /\
  forall p,
    In p (walk_c_files (w_walk w path)) <->
    exists root dirs files f stem,
      In (root, dirs, files) (w_walk w path) /\ In f files /\
      (T f = stem ++ T ".c" \/ T f = stem ++ T ".h") /\
      p = path_join root f.
Proof.
  split; [apply get_all_c_files_walk|].
  intros p. unfold walk_c_files. rewrite in_flat_map. split.
  - intros ([[root dirs] files] & Hin & Hp).
    apply in_map_iff in Hp as (f & <- & Hf).
    apply filter_In in Hf as [Hf Hext].
    apply has_c_extension_spec in Hext as (stem & Hstem).
    exists root, dirs, files, f, stem. auto.
  - intros (root & dirs & files & f & stem & Hin & Hf & Hstem & ->).
    exists (root, dirs, files). split; [assumption|].
    apply in_map, filter_In. split; [assumption|].
    apply has_c_extension_spec. now exists stem.
Qed.

(** ** Whole runs *)










(** A file that no selected path names is rewritten all the same when a
    selected path leads to it. *)
Example linked_file_rewritten :
  selected_files sample_linked ["c_linter.py"; "src"; "true"]%string = ["src/a.c"%string] /\
  file_text sample_linked "src/b.txt" = Some (T "int* f() { x } y" ++ [LF]) /\
  file_text (snd (main ["c_linter.py"; "src"; "true"]%string sample_linked)) "src/b.txt" =
    Some (T "int *f()" ++ [LF] ++ T "{" ++ [LF] ++ T "x } y" ++ [LF]).
Proof. repeat split; reflexivity. Qed.

(** ** A file that stops the run *)













(** ** The Linter, line by line *)

Lemma lint_line_renumber (filename : string) (i : nat) (line : text) :
  lint_line filename (i + 1) line [] =
  map (renumber i) (lint_line filename (0 + 1) line []).
Proof.
  unfold lint_line. four_checks line; reflexivity.
Qed.

Lemma lint_loop_renumber (filename : string) (lines : list text) : forall i,
  lint_loop filename i lines [] = map (renumber i) (lint_loop filename 0 lines []).
Proof.
  induction lines as [|l lines IH]; intros i; [reflexivity|].
  rewrite !lint_loop_cons. cbn [app]. rewrite map_app.
  rewrite (lint_line_renumber filename i l). f_equal.
  rewrite (IH (S i)), (IH 1), map_map. apply map_ext.
  intros [f n m|m a]; simpl; [f_equal; lia | reflexivity].
Qed.

Lemma lint_loop_append (filename : string) (l1 l2 : list text) : forall i,
  lint_loop filename i (l1 ++ l2) [] =
  lint_loop filename i l1 [] ++ lint_loop filename (i + length l1) l2 [].
Proof.
  induction l1 as [|l l1 IH]; intros i.
  - simpl. now rewrite Nat.add_0_r.
  - cbn [app]. rewrite !lint_loop_cons. cbn [app]. rewrite IH.
    rewrite <- app_assoc. do 2 f_equal.
    replace (S i + length l1) with (i + length (l :: l1)) by (simpl; lia).
    reflexivity.
Qed.

(** X14. The Linter keeps no state from line to line: the diagnostics of
    two sequences of lines put together are those of the first, followed
    by those of the second with the line numbers moved by the length of the
    first. *)
Theorem lint_lines_append (filename : string) (l1 l2 : list text) :
  lint_lines filename (l1 ++ l2) =
  lint_lines filename l1 ++ map (renumber (length l1)) (lint_lines filename l2).
Proof.
  unfold lint_lines. rewrite lint_loop_append. f_equal.
  apply lint_loop_renumber.
Qed.

(** ** What the checks need *)

Lemma content_one (c : ascii) : is_space c = false -> content [c] = [c].
Proof. intros H. unfold content, not_space. simpl. now rewrite H. Qed.

Lemma content_length_app (a b : text) :
  length (content (a ++ b)) = length (content a) + length (content b).
Proof. now rewrite content_app, length_app. Qed.

Lemma not_space_nor_space (x c : ascii) :
  not_space_nor x c = true -> is_space c = false.
Proof.
  unfold not_space_nor. intros H. apply andb_true_iff in H as [H _].
  now apply negb_true_iff.
Qed.

(** The text of a match of any pattern of the Linter holds two characters
    that are not whitespace. *)
Ltac two_marks :=
  repeat rewrite content_length_app;
  repeat match goal with
    | H : is_space ?c = false |- context [content [?c]] =>
        rewrite (content_one c H)
    end;
  simpl; lia.

Lemma pointer_found_two (line : text) :
  found (re_search POINTER_SPACING_PATTERN line) = true ->
  2 <= length (content line).
Proof.
  intros H. apply found_search in H as (a & b & x & rest & g & -> & -> & M).
  unfold POINTER_SPACING_PATTERN, Rep1 in M. inv_match.
  repeat match goal with
    | H : is_word ?c = true |- _ => apply word_not_space in H
    end.
  two_marks.
Qed.

Lemma brace_same_found_two (line : text) :
  found (re_search BRACE_ON_SAME_LINE_PATTERN line) = true ->
  2 <= length (content line).
Proof.
  intros H. apply found_search in H as (a & b & x & rest & g & -> & -> & M).
  unfold BRACE_ON_SAME_LINE_PATTERN in M. inv_match. two_marks.
Qed.

Lemma opening_found_two (line : text) :
  found (re_search OPENING_BRACE_NOT_ALONE_PATTERN line) = true ->
  2 <= length (content line).
Proof.
  intros H. apply found_search in H as (a & b & x & rest & g & -> & -> & M).
  unfold OPENING_BRACE_NOT_ALONE_PATTERN in M. inv_match.
  repeat match goal with
    | H : not_space ?c = true |- _ => apply negb_true_iff in H
    | H : not_space_nor _ ?c = true |- _ => apply not_space_nor_space in H
    end.
  two_marks.
Qed.

Lemma closing_found_two (line : text) :
  found (re_search CLOSING_BRACE_NOT_ALONE_PATTERN line) = true ->
  2 <= length (content line).
Proof.
  intros H. apply found_search in H as (a & b & x & rest & g & -> & -> & M).
  unfold CLOSING_BRACE_NOT_ALONE_PATTERN in M. inv_match.
  repeat match goal with
    | H : not_space ?c = true |- _ => apply negb_true_iff in H
    | H : not_space_nor _ ?c = true |- _ => apply not_space_nor_space in H
    end.
  two_marks.
Qed.

Lemma else_found_two (line : text) :
  found (re_match ELSE_BRACE_PATTERN line) = true -> 2 <= length (content line).
Proof.
  destruct (re_match ELSE_BRACE_PATTERN line) as [m|] eqn:E; [|discriminate].
  intros _. destruct (else_shape_inv _ _ E)
    as (indent & sp & body & sp' & rest & -> & _).
  repeat rewrite content_length_app. simpl. lia.
Qed.

Lemma sparse_line_quiet (filename : string) (lineno : nat) (line : text) :
  length (content line) <= 1 -> lint_line filename lineno line [] = [].
Proof.
  intros H. unfold lint_line.
  destruct (found (re_search POINTER_SPACING_PATTERN line)) eqn:E1;
    [apply pointer_found_two in E1; lia|].
  destruct (found (re_search BRACE_ON_SAME_LINE_PATTERN line)) eqn:E2;
    [apply brace_same_found_two in E2; lia|].
  destruct (found (re_search OPENING_BRACE_NOT_ALONE_PATTERN line)) eqn:E3;
    [apply opening_found_two in E3; lia|].
  destruct (found (re_search CLOSING_BRACE_NOT_ALONE_PATTERN line)) eqn:E4;
    [apply closing_found_two in E4; lia|].
  reflexivity.
Qed.

Lemma sparse_line_kept (line : text) :
  length (content line) <= 1 ->
  fix_pointer_spacing line = line /\ fix_line line = [line].
Proof.
  intros H. split.
  - apply re_sub_no_match.
    destruct (found (re_search POINTER_SPACING_PATTERN line)) eqn:E; [|reflexivity].
    apply pointer_found_two in E. lia.
  - apply fix_line_clean.
    + destruct (found (re_search BRACE_ON_SAME_LINE_PATTERN line)) eqn:E; [|reflexivity].
      apply brace_same_found_two in E. lia.
    + destruct (found (re_match ELSE_BRACE_PATTERN line)) eqn:E; [|reflexivity].
      apply else_found_two in E. lia.
Qed.

(** X15. Lines with at most one character that is not whitespace (blank
    lines, lone braces with whatever whitespace around them, a lone
    semicolon) are accepted and kept: the Linter reports nothing for a
    sequence of such lines, and the fix pass returns it as it is. *)
Theorem sparse_lines_accepted (filename : string) (lines : list text) :
  Forall (fun line => length (content line) <= 1) lines ->
  lint_lines filename lines = [] /\ fix_pass lines = lines.
Proof.
  intros H. split.
  - unfold lint_lines. generalize 0.
    induction H as [|l ls Hl _ IH]; intros i; [reflexivity|].
    rewrite lint_loop_cons. cbn [app].
    now rewrite (sparse_line_quiet filename (i + 1) l Hl), IH.
  - unfold fix_pass. rewrite fix_brace_placement_flat.
    induction H as [|l ls Hl _ IH]; [reflexivity|].
    destruct (sparse_line_kept l Hl) as [Hp Hb].
    cbn [map flat_map]. now rewrite Hp, Hb, IH.
Qed.

Lemma sparse_lines_accepted_witness :
  Forall (fun line => length (content line) <= 1)
    [T "  {  " ++ [LF]; [LF]; T "}" ++ [LF]; T "    ;"] /\
  lint_lines "a.c" [T "  {  " ++ [LF]; [LF]; T "}" ++ [LF]; T "    ;"] = [] /\
  fix_pass [T "  {  " ++ [LF]; [LF]; T "}" ++ [LF]; T "    ;"] =
    [T "  {  " ++ [LF]; [LF]; T "}" ++ [LF]; T "    ;"].
Proof.
  assert (H : Forall (fun line => length (content line) <= 1)
                [T "  {  " ++ [LF]; [LF]; T "}" ++ [LF]; T "    ;"]).
  { repeat constructor. }
  split; [exact H|]. exact (sparse_lines_accepted "a.c" _ H).
Defined.

(** X16. The brace-new-line check and the general-header rule of the
    Rewriter look for the same thing: the check fires on a line exactly
    when the header pattern is found in it. *)
Theorem brace_check_is_header_rule (line : text) :
  found (re_search BRACE_ON_SAME_LINE_PATTERN line) =
  found (re_search FUNCTION_BRACE_PATTERN line).
Proof.
  destruct (found (re_search BRACE_ON_SAME_LINE_PATTERN line)) eqn:E.
  - symmetry. apply found_search in E as (a & b & x & rest & g & -> & -> & M).
    unfold BRACE_ON_SAME_LINE_PATTERN in M. inv_match.
    match goal with
    | H : forallb is_space ?sp = true |- _ =>
        assert (S : search_from FUNCTION_BRACE_PATTERN []
                      (a ++ [] ++ ")"%char :: sp ++ "{"%char :: rest) <> None);
        [ apply search_complete;
          apply (function_at_exists (rev a ++ []) [] (sp ++ "{"%char :: rest) rest);
          [ reflexivity | now apply drop_while_app ]
        | ]
    end.
    unfold re_search. norm_app. simpl in S.
    match goal with
    | |- found ?s = true => destruct s; [reflexivity | contradiction]
    end.
  - now rewrite header_found_is_flagged.
Qed.

(** ** The brace-alone checks, read on a line of a file *)

(** Both checks have the shape: a character that is not whitespace, a run,
    the brace [x], a run, a character that is neither whitespace nor
    [y]. *)
Lemma brace_alone_reading (x y : ascii) (line : text) :
  single_line line ->
  found (re_search (Cat (Cls not_space)
                      (Cat (Rep is_dot)
                         (Cat (Chr x) (Cat (Rep is_dot) (Cls (not_space_nor y))))))
           line) = true <->
  exists p t, line = p ++ x :: t /\ existsb not_space p = true /\
              existsb (not_space_nor y) t = true.
Proof.
  intros Hl. rewrite found_search. split.
  - intros (a & b & m & rest & g & -> & -> & M). inv_match.
    match goal with
    | H1 : not_space ?c1 = true, H2 : not_space_nor y ?c2 = true |- _ =>
        match goal with
        | |- context [[c1] ++ ?y1 ++ [x] ++ ?y2 ++ [c2]] =>
            exists (a ++ c1 :: y1), (y2 ++ c2 :: rest); split; [|split]
        end
    end.
    + norm_app. reflexivity.
    + rewrite existsb_app. simpl. apply orb_true_iff. right.
      apply orb_true_iff. now left.
    + rewrite existsb_app. simpl. apply orb_true_iff. right.
      apply orb_true_iff. now left.
  - intros (p & t & Hline & Hp & Ht).
    apply existsb_exists in Hp as (c1 & Hin1 & Hc1).
    apply existsb_exists in Ht as (c2 & Hin2 & Hc2).
    apply in_split in Hin1 as (a & y1 & ->).
    apply in_split in Hin2 as (y2 & rest & ->).
    assert (H1 : forallb is_dot y1 = true).
    { assert (H : forallb is_dot ((a ++ [c1]) ++ y1) = true).
      { apply (single_line_no_newline _ (x :: y2 ++ c2 :: rest)); [|discriminate].
        rewrite Hline in Hl. norm_app. norm_app_in Hl. exact Hl. }
      rewrite forallb_app in H. now apply andb_true_iff in H as [_ H]. }
    assert (H2 : forallb is_dot y2 = true).
    { assert (H : forallb is_dot ((a ++ c1 :: y1 ++ [x]) ++ y2) = true).
      { apply (single_line_no_newline _ (c2 :: rest)); [|discriminate].
        rewrite Hline in Hl. norm_app. norm_app_in Hl. exact Hl. }
      rewrite forallb_app in H. now apply andb_true_iff in H as [_ H]. }
    exists a, (c1 :: y1 ++ x :: y2 ++ c2 :: rest),
           ([c1] ++ y1 ++ [x] ++ y2 ++ [c2]), rest, [].
    split; [now rewrite Hline, <- app_assoc|]. split; [norm_app; reflexivity|].
    apply M_Cat with (g1 := []); [now apply M_Cls|].
    apply M_Cat with (g1 := []); [now apply M_Rep|].
    apply M_Cat with (g1 := []); [apply M_Chr|].
    apply M_Cat with (g1 := []); [now apply M_Rep | now apply M_Cls].
Qed.

(** X17. On a line as read from a file, the opening-brace check fires
    exactly when some opening brace of the line has a character that is not
    whitespace somewhere before it and a character that is neither
    whitespace nor a closing brace somewhere after it; the closing-brace
    check is the same with the two braces exchanged.  Text next to a brace
    on one side only, or only closing braces after an opening one, is not
    reported by these checks. *)
Theorem brace_alone_checks (line : text) :
  single_line line ->
  (found (re_search OPENING_BRACE_NOT_ALONE_PATTERN line) = true <->
   exists p t, line = p ++ "{"%char :: t /\ existsb not_space p = true /\
               existsb (not_space_nor "}") t = true) /\
  (found (re_search CLOSING_BRACE_NOT_ALONE_PATTERN line) = true <->
   exists p t, line = p ++ "}"%char :: t /\ existsb not_space p = true /\
               existsb (not_space_nor "{") t = true).
Proof.
  intros Hl. split.
  - apply (brace_alone_reading "{" "}" line Hl).
  - apply (brace_alone_reading "}" "{" line Hl).
Qed.

Lemma brace_alone_checks_witness :
  found (re_search OPENING_BRACE_NOT_ALONE_PATTERN (T "if (x) { y; }" ++ [LF])) = true /\
  found (re_search CLOSING_BRACE_NOT_ALONE_PATTERN (T "if (x) { y; }" ++ [LF])) = false.
Proof.
  assert (Hl : single_line (T "if (x) { y; }" ++ [LF])).
  { apply terminated_single_line. eexists. split; reflexivity. }
  destruct (brace_alone_checks _ Hl) as [Ho _]. split; [|reflexivity].
  apply Ho. exists (T "if (x) "), (T " y; }" ++ [LF]). repeat split.
Defined.

(** ** Indentation *)

Lemma take_while_until (p : ascii -> bool) (c : ascii) (y r1 r2 : text) :
  p c = false -> take_while p (y ++ c :: r1) = take_while p (y ++ c :: r2).
Proof.
  intros Hc. induction y as [|d y IH]; simpl.
  - now rewrite Hc.
  - destruct (p d); [now rewrite IH | reflexivity].
Qed.

Lemma strip_head (s : text) (c : ascii) (t : text) :
  strip s = c :: t -> is_space c = false.
Proof.
  unfold strip, lstrip. intros H.
  destruct (drop_while is_space s) as [|d e] eqn:E; [discriminate|].
  pose proof (drop_while_head _ _ _ _ E) as Hd.
  destruct (rstrip_cons d e Hd) as [t' Ht]. rewrite Ht in H.
  now inversion H; subst.
Qed.

Lemma indent_then (indent : text) (c : ascii) (t : text) :
  forallb is_space indent = true -> is_space c = false ->
  indent_of (indent ++ c :: t) = indent.
Proof.
  intros Hi Hc. rewrite indent_of_spec. now apply take_while_app.
Qed.

(** X18. The Rewriter keeps the indentation: every line it emits for a
    line as read from a file starts with exactly the leading whitespace of
    that line, whether the line is kept, split at an else or split at a
    header brace. *)
Theorem fix_line_keeps_indentation (line : text) :
  single_line line ->
  Forall (fun out => indent_of out = indent_of line) (fix_line line).
Proof.
  intros Hl.
  destruct (re_match ELSE_BRACE_PATTERN line) as [m|] eqn:Ee.
  { rewrite (fix_line_else _ _ Ee).
    destruct (else_shape_inv _ _ Ee)
      as (indent & sp & body & sp' & rest & Hline & Hi & Hsp & Hsp' & Hb & Hnb & -> & ->).
    assert (Hind : indent_of line = indent).
    { rewrite Hline. now apply indent_then. }
    rewrite Hind.
    destruct (starts_with_cons _ _ _ Hb) as (body' & -> & _).
    destruct (rstrip_cons "e"%char body' eq_refl) as [t Ht].
    assert (Hs : strip ("e"%char :: body') = "e"%char :: t) by exact Ht.
    rewrite Hs.
    repeat constructor; now apply indent_then. }
  destruct (text_eqb (strip line) (T "{") || text_eqb (strip line) (T "}")) eqn:Hlone.
  { unfold fix_line, brace_step. rewrite Hlone. now repeat constructor. }
  destruct (re_search FUNCTION_BRACE_PATTERN line) as [m|] eqn:Ef.
  2:{ unfold fix_line, brace_step. rewrite Hlone, Ee, Ef. now repeat constructor. }
  destruct (header_single_line line m Hl Ef) as (y & z1 & z2 & Hline & Hy & Hz & ->).
  rewrite (fix_line_header line [] y z1 z2 Hlone Ee Ef).
  assert (Hsp : forallb is_space (indent_of line) = true).
  { rewrite indent_of_spec. apply take_while_all. }
  assert (H1 : indent_of ((y ++ T ")") ++ [LF]) = indent_of line).
  { rewrite !indent_of_spec, Hline. rewrite <- app_assoc.
    apply take_while_until. reflexivity. }
  assert (H2 : indent_of (indent_of line ++ T "{" ++ [LF]) = indent_of line).
  { now apply indent_then. }
  destruct (forallb is_space z2) eqn:Hz2; repeat constructor; try assumption.
  destruct (strip (take_while is_dot (drop_while is_space z2))) as [|c t] eqn:Es.
  - exfalso. apply strip_nil_iff in Es. rewrite suffix_blank in Es. congruence.
  - apply strip_head in Es. now apply indent_then.
Qed.

Lemma fix_line_keeps_indentation_witness :
  single_line (T "    if (x) { y; }" ++ [LF]) /\
  Forall (fun out => indent_of out = T "    ")
    (fix_line (T "    if (x) { y; }" ++ [LF])).
Proof.
  assert (Hl : single_line (T "    if (x) { y; }" ++ [LF])).
  { apply terminated_single_line. eexists. split; reflexivity. }
  split; [exact Hl|]. exact (fix_line_keeps_indentation _ Hl).
Defined.

(** ** The fix flag *)

Lemma lower_char_t (c : ascii) :
  lower_char c = "t"%char -> c = "t"%char \/ c = "T"%char.
Proof.
  destruct c as [[] [] [] [] [] [] [] []]; intros H; vm_compute in H;
    try discriminate H; auto.
Qed.

Lemma lower_char_r (c : ascii) :
  lower_char c = "r"%char -> c = "r"%char \/ c = "R"%char.
Proof.
  destruct c as [[] [] [] [] [] [] [] []]; intros H; vm_compute in H;
    try discriminate H; auto.
Qed.

Lemma lower_char_u (c : ascii) :
  lower_char c = "u"%char -> c = "u"%char \/ c = "U"%char.
Proof.
  destruct c as [[] [] [] [] [] [] [] []]; intros H; vm_compute in H;
    try discriminate H; auto.
Qed.

Lemma lower_char_e (c : ascii) :
  lower_char c = "e"%char -> c = "e"%char \/ c = "E"%char.
Proof.
  destruct c as [[] [] [] [] [] [] [] []]; intros H; vm_compute in H;
    try discriminate H; auto.
Qed.

(** X19. Fixing is requested by the second argument alone, and only by
    the word [true] of four letters in any mix of upper and lower case:
    nothing else (a longer word, surrounding blanks, [yes], [1]) turns it
    on. *)
Theorem fix_requested_spelling (argv : list string) :
  fix_requested argv = true <->
  exists c1 c2 c3 c4,
    nth 2 argv EmptyString = string_of_list_ascii [c1; c2; c3; c4] /\
    (c1 = "t"%char \/ c1 = "T"%char) /\ (c2 = "r"%char \/ c2 = "R"%char) /\
    (c3 = "u"%char \/ c3 = "U"%char) /\ (c4 = "e"%char \/ c4 = "E"%char).
Proof.
  unfold fix_requested, lower, T. split.
  - intros H. apply String.eqb_eq in H.
    apply (f_equal list_ascii_of_string) in H.
    rewrite list_ascii_of_string_of_list_ascii in H.
    rewrite <- (string_of_list_ascii_of_string (nth 2 argv EmptyString)).
    destruct (list_ascii_of_string (nth 2 argv EmptyString))
      as [|c1 [|c2 [|c3 [|c4 [|c5 l]]]]]; try discriminate H.
    simpl in H. injection H as H1 H2 H3 H4.
    exists c1, c2, c3, c4. split; [reflexivity|].
    repeat split;
      [now apply lower_char_t | now apply lower_char_r
      | now apply lower_char_u | now apply lower_char_e].
  - intros (c1 & c2 & c3 & c4 & -> & H1 & H2 & H3 & H4).
    rewrite list_ascii_of_string_of_list_ascii.
    destruct H1 as [-> | ->], H2 as [-> | ->], H3 as [-> | ->], H4 as [-> | ->];
      reflexivity.
Qed.
